(** * The Candi compiler front end: parser and file loader

    A shallow embedding of [Candi_Compiler/parser.hpp] (the expression
    builder [build_statement] and the [ParsingProcess] functors) and of
    [load_file_to_char8_vector] and [to_u8vec] from
    [global_dependencies/libcsl.hpp].

    Iterators into the token vector are positions ([nat]) in a [list Tk];
    a pair [(begin, end)] is the half-open range the C++ code receives.
    C++ exceptions are the [Throw] outcome of a small error monad. *)

From Stdlib Require Import List String Ascii Arith Lia Bool PeanoNat.
From Stdlib Require Import ZArith.
From Stdlib Require Import DecimalString.
From Stdlib.Strings Require Import Byte.
Import ListNotations.
Local Open Scope string_scope.
Local Open Scope nat_scope.
Set Warnings "-register-all".

(** ** Tokens *)

(** Modelled from the spec: [token.hpp] is not among the sources.  The
    kinds are those [parser.hpp] names ([Tk::eType::...]) together with the
    keyword, sigil, literal, bracket and operator kinds the spec lists. *)
Inductive tk_enum : Set :=
  (* keywords *)
  | include_ | macro_ | type_ | var_ | class_ | func_
  | if_ | else_ | elif_ | while_ | for_ | on_
  | break_ | continue_ | return_ | print_ | none_literal_
  (* type sigils *)
  | aint_ | auint_ | areal_ | aoctet_ | abit_ | atype_ | avalue_
  | aidentity_ | apointer_ | aarray_ | astr_
  (* literals *)
  | number_literal | real_literal | unsigned_literal | octet_literal
  | bit_literal | string_literal | alnumus
  (* scopes *)
  | open_scope | close_scope | open_list | close_list
  | open_frame | close_frame
  (* operators *)
  | simple_assignment | addition_assignment | subtraction_assignment
  | multiplication_assignment | division_assignment | remainder_assignment
  | logical_OR | logical_AND | equal | not_equal
  | less_than | less_than_or_equal | greater_than | greater_than_or_equal
  | addition | subtraction | multiplication | division | remainder
  | negation | period | ellipsis
  (* separators *)
  | comma | eos | eof.

Scheme Equality for tk_enum.

Record Tk : Set := mkTk {
  tk_type : tk_enum;
  tk_literal : string;
  tk_line : nat;
  tk_col : nat
}.

Definition tk_vector_t := list Tk.

(** ** Syntax traits *)

Inductive Operation : Set := op_none_ | unary_ | binary_.
Inductive Associativity : Set := assoc_none_ | left_ | right_.

Scheme Equality for Operation.
Scheme Equality for Associativity.

(** Modelled from the spec: [syntax_traits.hpp] is not among the sources.
    The tokenizer gives one kind per spelling, and [a + b - c] is a chain
    of binary operators, so [addition] and [subtraction] are binary here;
    the prefix operator with a kind of its own is [negation]. *)
Definition operation_of (k : tk_enum) : Operation :=
  match k with
  | negation => unary_
  | simple_assignment | addition_assignment | subtraction_assignment
  | multiplication_assignment | division_assignment | remainder_assignment
  | logical_OR | logical_AND | equal | not_equal
  | less_than | less_than_or_equal | greater_than | greater_than_or_equal
  | addition | subtraction | multiplication | division | remainder
  | period => binary_
  | _ => op_none_
  end.

(** Modelled from the spec: [syntax_traits.hpp] is not among the sources.
    The precedence table of the spec, lowest to highest: assignment,
    logical, equality, relational, additive, multiplicative, unary,
    member.  The table orders operators only; every other kind gets 0. *)
Definition importance_of (k : tk_enum) : nat :=
  match k with
  | simple_assignment | addition_assignment | subtraction_assignment
  | multiplication_assignment | division_assignment
  | remainder_assignment => 1
  | logical_OR | logical_AND => 2
  | equal | not_equal => 3
  | less_than | less_than_or_equal | greater_than
  | greater_than_or_equal => 4
  | addition | subtraction => 5
  | multiplication | division | remainder => 6
  | negation => 7
  | period => 8
  | _ => 0
  end.

(** Modelled from the spec: [syntax_traits.hpp] is not among the sources.
    The assignment family and the prefix operator associate to the right,
    every other operator to the left. *)
Definition associativity_of (k : tk_enum) : Associativity :=
  match k with
  | simple_assignment | addition_assignment | subtraction_assignment
  | multiplication_assignment | division_assignment
  | remainder_assignment => right_
  | negation => right_
  | logical_OR | logical_AND | equal | not_equal
  | less_than | less_than_or_equal | greater_than | greater_than_or_equal
  | addition | subtraction | multiplication | division | remainder
  | period => left_
  | _ => assoc_none_
  end.

(** ** AST nodes *)

(** Modelled from the spec: [ast_node.hpp] is not among the sources.  A
    node kind mirrors a token kind ([of_tk]) or is one of the compound
    kinds [parser.hpp] names. *)
Inductive node_enum : Set :=
  | of_tk (k : tk_enum)
  | none_ | invalid_
  | function_call_ | arguments_ | expression_
  | type_constraints_ | type_definition_
  | anon_variable_definition_ | anon_variable_definition_assingment_
  | constrained_variable_definition_ | variable_assignment_
  | shorthand_void_method_definition_ | method_definition_
  | shorthand_constrained_void_method_definition_
  | class_definition_ | pragmatic_block_ | functional_block_.

Definition node_enum_eqb (a b : node_enum) : bool :=
  match a, b with
  | of_tk x, of_tk y => tk_enum_beq x y
  | none_, none_ | invalid_, invalid_
  | function_call_, function_call_ | arguments_, arguments_
  | expression_, expression_ | type_constraints_, type_constraints_
  | type_definition_, type_definition_
  | anon_variable_definition_, anon_variable_definition_
  | anon_variable_definition_assingment_,
    anon_variable_definition_assingment_
  | constrained_variable_definition_, constrained_variable_definition_
  | variable_assignment_, variable_assignment_
  | shorthand_void_method_definition_, shorthand_void_method_definition_
  | method_definition_, method_definition_
  | shorthand_constrained_void_method_definition_,
    shorthand_constrained_void_method_definition_
  | class_definition_, class_definition_
  | pragmatic_block_, pragmatic_block_
  | functional_block_, functional_block_ => true
  | _, _ => false
  end.

(** [Node{kind, begin, end}] carries the token span; [Node(kind)] has
    none.  The children are ordered. *)
Inductive Node : Set :=
  mkNode { type : node_enum; span : option (nat * nat); body : list Node }.

Definition Node_of (k : node_enum) : Node := mkNode k None [].
Definition Node_span (k : node_enum) (b e : nat) : Node :=
  mkNode k (Some (b, e)) [].

Definition push_back (n c : Node) : Node :=
  mkNode (type n) (span n) (body n ++ [c]).
Definition push_front (n c : Node) : Node :=
  mkNode (type n) (span n) (c :: body n).
(** [front()] of a node without children is undefined in C++; the
    builder only calls it on a pass that holds its left operand. *)
Definition front (n : Node) : Node := hd (Node_of none_) (body n).
Definition token_end (n : Node) : nat :=
  match span n with Some (_, e) => e | None => 0 end.

(** ** Outcomes: a value, a C++ exception, or the model's fuel ran out *)

Inductive exn : Set :=
  | runtime_error (what : string)
  | bad_optional_access.

Inductive outcome (A : Type) : Type :=
  | Ok (a : A)
  | Throw (e : exn)
  | OutOfFuel.
Arguments Ok {A} a.
Arguments Throw {A} e.
Arguments OutOfFuel {A}.

Definition bind {A B} (m : outcome A) (k : A -> outcome B) : outcome B :=
  match m with
  | Ok a => k a
  | Throw e => Throw e
  | OutOfFuel => OutOfFuel
  end.

Notation "x <- m ;; k" := (bind m (fun x => k))
  (at level 61, m at next level, right associativity).

(** [std::optional<Node>::value()] *)
Definition value (o : option Node) : outcome Node :=
  match o with
  | Some n => Ok n
  | None => Throw bad_optional_access
  end.

(** ** Scope results *)

Record ScopeResult : Set := mkScope {
  valid : bool;
  scope_begin : nat;
  scope_end : nat
}.

(** Modelled from the spec: [parser_utils.hpp] is not among the sources.
    The contained range leaves out the opening and the closing token. *)
Definition contained_begin (s : ScopeResult) : nat := S (scope_begin s).
Definition contained_end (s : ScopeResult) : nat := pred (scope_end s).
Definition is_empty (s : ScopeResult) : bool :=
  contained_begin s =? contained_end s.

Inductive family : Set := paren | brace | frame.

Definition opener (k : tk_enum) : option family :=
  match k with
  | open_scope => Some paren
  | open_list => Some brace
  | open_frame => Some frame
  | _ => None
  end.

Definition closer (k : tk_enum) : option family :=
  match k with
  | close_scope => Some paren
  | close_list => Some brace
  | close_frame => Some frame
  | _ => None
  end.

Definition family_eqb (a b : family) : bool :=
  match a, b with
  | paren, paren | brace, brace | frame, frame => true
  | _, _ => false
  end.

(** One depth counter per bracket family. *)
Record depths : Set := mkDepths { d_paren : nat; d_brace : nat; d_frame : nat }.

Definition depth_of (d : depths) (f : family) : nat :=
  match f with paren => d_paren d | brace => d_brace d | frame => d_frame d end.
Definition enter (f : family) (d : depths) : depths :=
  match f with
  | paren => mkDepths (S (d_paren d)) (d_brace d) (d_frame d)
  | brace => mkDepths (d_paren d) (S (d_brace d)) (d_frame d)
  | frame => mkDepths (d_paren d) (d_brace d) (S (d_frame d))
  end.
Definition leave (f : family) (d : depths) : depths :=
  match f with
  | paren => mkDepths (pred (d_paren d)) (d_brace d) (d_frame d)
  | brace => mkDepths (d_paren d) (pred (d_brace d)) (d_frame d)
  | frame => mkDepths (d_paren d) (d_brace d) (pred (d_frame d))
  end.
Definition level (d : depths) : bool :=
  (d_paren d =? 0) && (d_brace d =? 0) && (d_frame d =? 0).
Definition no_depth : depths := mkDepths 0 0 0.

Section Parser.

Variable tks : tk_vector_t.

(** ** Token cursor *)

(** Modelled from the spec: [parser_utils.hpp] is not among the sources.
    A cursor is a position with the end of its range.  The spec's "if
    followed by eof/end" is read as: at or past the end the cursor reads
    as an [eof] token, and stepping stops at the end. *)
Record TokenCursor : Set := mkCursor { it_ : nat; end_ : nat }.

Definition sentinel_end_token : Tk := mkTk eof "" 0 0.

Definition get (c : TokenCursor) : Tk :=
  if it_ c <? end_ c then nth (it_ c) tks sentinel_end_token
  else sentinel_end_token.

Definition next (n : nat) (c : TokenCursor) : TokenCursor :=
  mkCursor (if end_ c <=? it_ c + n then end_ c else it_ c + n) (end_ c).

Definition cursor_type (c : TokenCursor) : tk_enum := tk_type (get c).
Definition type_is (c : TokenCursor) (k : tk_enum) : bool :=
  tk_enum_beq (cursor_type c) k.
Definition lit (c : TokenCursor) : string := tk_literal (get c).
Definition operation (c : TokenCursor) : Operation :=
  operation_of (cursor_type c).
Definition importance (c : TokenCursor) : nat :=
  importance_of (cursor_type c).
Definition associativity (c : TokenCursor) : Associativity :=
  associativity_of (cursor_type c).

(** [to_statement]: the one-token node whose kind mirrors the token. *)
Definition to_statement (c : TokenCursor) : Node :=
  Node_span (of_tk (cursor_type c)) (it_ c) (S (it_ c)).

(** ** Scope finders *)

Definition kind_at (pos : nat) : tk_enum :=
  tk_type (nth pos tks sentinel_end_token).

(** Walk [n] tokens from [pos]; the answer is the position one past the
    closing token that brings the wanted family back to depth zero. *)
Fixpoint scan_scope (want : family) (n pos : nat) (d : depths)
  : option nat :=
  match n with
  | 0 => None
  | S n' =>
    let k := kind_at pos in
    match opener k with
    | Some f => scan_scope want n' (S pos) (enter f d)
    | None =>
      match closer k with
      | Some f =>
        if depth_of d f =? 0 then None
        else
          let d' := leave f d in
          if family_eqb f want && (depth_of d' want =? 0)
          then (if level d' then Some (S pos) else None)
          else scan_scope want n' (S pos) d'
      | None => scan_scope want n' (S pos) d
      end
    end
  end.

(** Modelled from the spec: [parser_utils.hpp] is not among the sources.
    "Returns the half-open range of tokens enclosed by the first balanced
    pair starting at begin", with a depth counter over the three bracket
    families.  A failed search is not valid and keeps the range given. *)
Definition find_scope_of (want : family) (open : tk_enum)
    (begin end' : nat) : ScopeResult :=
  if (begin <? end') && tk_enum_beq (kind_at begin) open then
    match scan_scope want (end' - S begin) (S begin) (enter want no_depth) with
    | Some p => mkScope true begin p
    | None => mkScope false begin end'
    end
  else mkScope false begin end'.

Definition find_scope := find_scope_of paren open_scope.
Definition find_list := find_scope_of brace open_list.
Definition find_frame := find_scope_of frame open_frame.

(** Walk [n] tokens from [pos] to the first terminator at depth zero. *)
Fixpoint scan_statement (repeats : bool) (open close : tk_enum)
    (n pos : nat) (d : depths) : option nat :=
  match n with
  | 0 => None
  | S n' =>
    let k := kind_at pos in
    if level d && tk_enum_beq k close then Some (S pos)
    else
      match opener k with
      | Some f => scan_statement repeats open close n' (S pos) (enter f d)
      | None =>
        match closer k with
        | Some f =>
          if depth_of d f =? 0 then None
          else scan_statement repeats open close n' (S pos) (leave f d)
        | None =>
          if level d && negb repeats && tk_enum_beq k open then None
          else scan_statement repeats open close n' (S pos) d
        end
      end
  end.

Definition find_statement_of (repeats : bool) (open close : tk_enum)
    (begin end' : nat) : ScopeResult :=
  if (begin <? end') && tk_enum_beq (kind_at begin) open then
    match scan_statement repeats open close (end' - S begin) (S begin)
            no_depth with
    | Some p => mkScope true begin p
    | None => mkScope false begin end'
    end
  else mkScope false begin end'.

(** Modelled from the spec: [parser_utils.hpp] is not among the sources.
    "Finds a range that starts with open_kind and ends at the first
    terminator_kind at depth zero, skipping over any balanced bracket
    interiors." *)
Definition find_statement := find_statement_of false.

(** Modelled from the spec: [parser_utils.hpp] is not among the sources.
    "The same but permits repeated occurrences of open_kind inside." *)
Definition find_open_statement := find_statement_of true.

(** Modelled from the spec: [parser_utils.hpp] is not among the sources.
    [find_forward(it, {k1, ..., kn})]: the tokens from [it] on have the
    kinds listed, in order.  Used as the call sites use it, for the fixed
    shape of a statement head. *)
Fixpoint find_forward (pos : nat) (ks : list tk_enum) : bool :=
  match ks with
  | [] => true
  | k :: ks' =>
    (pos <? List.length tks) && tk_enum_beq (kind_at pos) k
    && find_forward (S pos) ks'
  end.

(** ** The expression builder *)

Definition cursor (begin end' : nat) : TokenCursor := mkCursor begin end'.

Definition is_unary (c : TokenCursor) : bool :=
  Operation_beq (operation c) unary_.
Definition is_right (c : TokenCursor) : bool :=
  Associativity_beq (associativity c) right_.

(** The function-call node of an operand followed by a scope: the callee
    and an [arguments_] node that spans the contents of the scope. *)
Definition make_function_call (from : nat) (callee : Node)
    (arg_scope : ScopeResult) : Node :=
  push_back
    (push_back (Node_span function_call_ from (scope_end arg_scope)) callee)
    (Node_span arguments_ (contained_begin arg_scope)
       (contained_end arg_scope)).

(** The body of [build_statement(begin, end, last_pass)], with the
    function's calls to itself going through [build].  Every path of the
    C++ body returns a node or throws, so the optional it returns is never
    empty. *)
Definition build_step
    (build : nat -> nat -> option Node -> outcome (option Node))
    (begin end' : nat) (last_pass : option Node)
  : outcome (option Node) :=
    let it := cursor begin end' in
    match last_pass with
    | None =>
      if is_unary it then
        (* This expression starts with a unary operation. *)
        let unary_operation := to_statement it in
        if it_ (next 2 it) =? end' then
          Ok (Some (push_back unary_operation (to_statement (next 1 it))))
        else if importance it <? importance (next 2 it) then
          let next_operation :=
            push_back (to_statement (next 2 it)) (to_statement (next 1 it)) in
          r <- build (it_ (next 2 it)) end' (Some next_operation) ;;
          n <- value r ;;
          Ok (Some (push_back unary_operation n))
        else
          let unary_operation' :=
            push_back unary_operation (to_statement (next 1 it)) in
          let next_pass :=
            push_back (to_statement (next 2 it)) unary_operation' in
          build (it_ (next 2 it)) end' (Some next_pass)
      else if type_is it open_scope then
        (* This expression starts with a scope. *)
        let scope := find_scope (it_ it) end' in
        if negb (valid scope) then
          Throw (runtime_error "Mismatched parenthesis.")
        else if is_empty scope then
          Throw (runtime_error "Empty parenthesis.")
        else if scope_end scope =? end' then
          build (contained_begin scope) (contained_end scope) None
        else
          let next_pass := to_statement (cursor (scope_end scope) end') in
          r <- build (contained_begin scope) (contained_end scope) None ;;
          n <- value r ;;
          build (scope_end scope) end' (Some (push_back next_pass n))
      else
        (* The first token is assumed to be a singular operand. *)
        if it_ (next 1 it) =? end' then
          Ok (Some (to_statement it))
        else if type_is (next 1 it) open_scope then
          let arg_scope := find_scope (it_ (next 1 it)) end' in
          if negb (valid arg_scope) then
            Throw (runtime_error
              "Mismatched parenthesis in arguments to function call operator.")
          else
            let function_call :=
              make_function_call (it_ it) (to_statement it) arg_scope in
            if scope_end arg_scope =? end' then
              Ok (Some function_call)
            else
              let first_pass :=
                push_back (to_statement (cursor (scope_end arg_scope) end'))
                  function_call in
              build (scope_end arg_scope) end' (Some first_pass)
        else
          let first_pass :=
            push_back (to_statement (next 1 it)) (to_statement it) in
          build (it_ (next 1 it)) end' (Some first_pass)
    | Some last_pass =>
      (* A following pass: [it] is taken to be a binary operator. *)
      if (it_ (next 1 it) =? end') || type_is (next 1 it) eof then
        Throw (runtime_error
          "End of expression after binary operator. Operator must be followed by operand.")
      else
      _ <- (if negb (type_is (next 1 it) number_literal)
               && negb (type_is (next 1 it) alnumus) then
              if is_unary (next 1 it) then
                if it_ (next 2 it) =? end' then
                  Throw (runtime_error
                    "End of expression after unary operator. Operator must be followed by operand.")
                else Ok tt
              else if type_is (next 1 it) open_scope then
                let scope := find_scope (it_ (next 1 it)) end' in
                if negb (valid scope) then
                  Throw (runtime_error "Mismatched parenthesis.")
                else if is_empty scope then
                  Throw (runtime_error "Empty parenthesis.")
                else Ok tt
              else
                Throw (runtime_error
                  "Invalid right hand side operand. Operator must be followed by operand.")
            else Ok tt) ;;
      let next_operator_it0 :=
        if is_unary (next 1 it) then it_ (next 3 it)
        else if type_is (next 1 it) open_scope then
          scope_end (find_scope (it_ (next 1 it)) end')
        else it_ (next 2 it) in
      (* Special case for function call *)
      call <- (if type_is (cursor next_operator_it0 end') open_scope then
                 let arg_scope := find_scope next_operator_it0 end' in
                 if negb (valid arg_scope) then
                   Throw (runtime_error
                     "Mismatched parenthesis in arguments to function call operator.")
                 else
                   Ok (make_function_call (it_ it)
                         (to_statement (next 1 it)) arg_scope,
                       scope_end arg_scope)
               else Ok (Node_of none_, next_operator_it0)) ;;
      let optional_function_call := fst call in
      let next_operator_it := snd call in
      let next_op_cursor := cursor next_operator_it end' in
      let has_call :=
        negb (node_enum_eqb (type optional_function_call) none_) in
      if next_operator_it =? end' then
        (* The last pass: complete the operation by associativity. *)
        if is_right it then
          if is_unary (next 1 it) then
            Ok (Some (push_front last_pass
                  (push_back (to_statement (next 1 it))
                     (to_statement (next 2 it)))))
          else if type_is (next 1 it) open_scope then
            let scope := find_scope (it_ it) end' in
            r <- build (contained_begin scope) (contained_end scope) None ;;
            n <- value r ;;
            Ok (Some (push_front last_pass n))
          else if has_call then
            Ok (Some (push_front last_pass optional_function_call))
          else
            Ok (Some (push_front last_pass (to_statement (next 1 it))))
        else
          if is_unary (next 1 it) then
            Ok (Some (push_back last_pass
                  (push_back (to_statement (next 1 it))
                     (to_statement (next 2 it)))))
          else if type_is (next 1 it) open_scope then
            let scope := find_scope (it_ (next 1 it)) end' in
            r <- build (contained_begin scope) (contained_end scope) None ;;
            n <- value r ;;
            Ok (Some (push_back last_pass n))
          else if has_call then
            Ok (Some (push_back last_pass optional_function_call))
          else
            Ok (Some (push_back last_pass (to_statement (next 1 it))))
      else if importance it <? importance next_op_cursor then
        (* The following operator is more important: solve the right
           side first. *)
        r <- build (it_ (next 1 it)) end' None ;;
        n <- value r ;;
        if is_right it then Ok (Some (push_front last_pass n))
        else Ok (Some (push_back last_pass n))
      else
        (* This operator is a finished expression: it becomes the left
           hand side of the next operator. *)
        let lhs_expression := Node_of (type last_pass) in
        lhs <- (if is_right it then
                  if type_is (next 1 it) open_scope then
                    let scope := find_scope (it_ (next 1 it)) end' in
                    r <- build (contained_begin scope) (contained_end scope)
                           None ;;
                    n <- value r ;;
                    Ok (push_back (push_back lhs_expression n)
                          (front last_pass))
                  else if is_unary (next 1 it) then
                    Ok (push_back
                          (push_back lhs_expression
                             (push_back (to_statement (next 1 it))
                                (to_statement (next 2 it))))
                          (front last_pass))
                  else
                    Ok (push_back
                          (push_back lhs_expression
                             (to_statement (next 1 it)))
                          (front last_pass))
                else
                  if type_is (next 1 it) open_scope then
                    let scope := find_scope (it_ (next 1 it)) end' in
                    r <- build (contained_begin scope) (contained_end scope)
                           None ;;
                    n <- value r ;;
                    Ok (push_back
                          (push_back lhs_expression (front last_pass)) n)
                  else if is_unary (next 1 it) then
                    Ok (push_back
                          (push_back lhs_expression (front last_pass))
                          (push_back (to_statement (next 1 it))
                             (to_statement (next 2 it))))
                  else if has_call then
                    Ok (push_back
                          (push_back lhs_expression (front last_pass))
                          optional_function_call)
                  else
                    Ok (push_back
                          (push_back lhs_expression (front last_pass))
                          (to_statement (next 1 it)))) ;;
        let next_pass := push_back (to_statement next_op_cursor) lhs in
        build next_operator_it end' (Some next_pass)
    end.

(** [build_statement] calls itself on strictly shorter ranges; [fuel]
    bounds the depth of these calls. *)
Fixpoint build_statement_fuel (fuel : nat) (begin end' : nat)
    (last_pass : option Node) : outcome (option Node) :=
  match fuel with
  | 0 => OutOfFuel
  | S fuel' => build_step (build_statement_fuel fuel') begin end' last_pass
  end.

(** The calls nest no deeper than the range is long. *)
Definition build_statement (begin end' : nat) (last_pass : option Node)
  : outcome (option Node) :=
  build_statement_fuel (S (end' - begin)) begin end' last_pass.

End Parser.

(** ** Reading a tree *)

(** The shape of a tree without its spans: a leaf shows the literal of
    its tokens, an inner node its kind and children. *)
Inductive Ast : Set :=
  | Atom (k : node_enum) (literal : string)
  | Op (k : node_enum) (args : list Ast).

Definition span_literal (tks : tk_vector_t) (sp : option (nat * nat))
  : string :=
  match sp with
  | None => ""
  | Some (b, e) =>
    String.concat "" (map tk_literal (firstn (e - b) (skipn b tks)))
  end.

Fixpoint ast_of (tks : tk_vector_t) (n : Node) : Ast :=
  match body n with
  | [] => Atom (type n) (span_literal tks (span n))
  | _ => Op (type n) (map (ast_of tks) (body n))
  end.

Definition tok (k : tk_enum) (s : string) : Tk := mkTk k s 1 0.

(** ** Parsing results and the [ParsingProcess] base class *)

Record ParsingResult : Set := mkResult {
  res_it : nat;
  res_node : Node;
  res_valid : bool;
  res_error_message : string
}.

Definition nl : string := String (ascii_of_nat 10) EmptyString.

Definition show_nat (n : nat) : string :=
  NilEmpty.string_of_uint (Nat.to_uint n).

(** A process is built afresh for each call; its error stream starts as
    the bracketed name of its type.  [name] stands for
    [typeid(p).name()], which the C++ implementation chooses. *)
Definition error_stream_ (name : string) : string := "[" ++ name ++ "]".

Definition make_result (name : string) (node : Node) (cursor : nat)
    (valid : bool) (error_message : string) : ParsingResult :=
  mkResult cursor node valid (error_stream_ name ++ error_message ++ nl).

Definition make_error (name : string) (cursor : nat) (offending_token : Tk)
    (error_message : string) : ParsingResult :=
  mkResult cursor (Node_of invalid_) false
    (error_stream_ name ++ nl ++ error_message ++ " Offending token: "
       ++ tk_literal offending_token
       ++ "| Line: " ++ show_nat (tk_line offending_token)
       ++ "| Col: " ++ show_nat (tk_col offending_token) ++ nl).

Definition make_success (name : string) (node : Node) (end' : nat)
  : ParsingResult :=
  make_result name node end' true "".

Definition make_success_node (name : string) (node : Node) : ParsingResult :=
  make_result name node (token_end node) true "".


Section Processes.

Variable tks : tk_vector_t.

Definition at_ (pos : nat) : Tk := nth pos tks sentinel_end_token.
Definition kind (pos : nat) : tk_enum := kind_at tks pos.
Definition stmt (c : TokenCursor) : Node := to_statement tks c.
Definition deref (c : TokenCursor) : Tk := get tks c.

(** Modelled from the spec: [parser_utils.hpp] is not among the sources.
    [scan_tokens_pack<masks>(begin, end)]: the tokens from [begin] have the
    kinds of the masks in order, where a mask marked optional may be
    absent. *)
Fixpoint scan_tokens_pack (masks : list (tk_enum * bool)) (pos end' : nat)
  : bool :=
  match masks with
  | [] => true
  | (k, optional) :: ms =>
    if (pos <? end') && tk_enum_beq (kind pos) k
    then scan_tokens_pack ms (S pos) end'
    else if optional then scan_tokens_pack ms pos end' else false
  end.

(** *** Literals and the sigils without constraints *)

(** The one-token leaf; the assertion on the kind of [begin] is the
    caller's obligation. *)
Definition parse_leaf (name : string) (k : node_enum) (begin : nat)
  : ParsingResult :=
  make_success_node name (Node_span k begin (S begin)).

Definition ParseCsoType (begin end' : nat) :=
  parse_leaf "ParseCsoType" (of_tk atype_) begin.
Definition ParseCsoValue (begin end' : nat) :=
  parse_leaf "ParseCsoValue" (of_tk avalue_) begin.
Definition ParseCsoIdentity (begin end' : nat) :=
  parse_leaf "ParseCsoIdentity" (of_tk aidentity_) begin.
Definition ParseCsoReal (begin end' : nat) :=
  parse_leaf "ParseCsoReal" (of_tk areal_) begin.
Definition ParseCsoOctet (begin end' : nat) :=
  parse_leaf "ParseCsoOctet" (of_tk aoctet_) begin.
Definition ParseCsoBit (begin end' : nat) :=
  parse_leaf "ParseCsoBit" (of_tk abit_) begin.
Definition ParseAlnumusLiteral (begin end' : nat) :=
  parse_leaf "ParseAlnumusLiteral" (of_tk alnumus) begin.


(** *** The constrained sigils *)

Definition constrained_int_type_mask : list (tk_enum * bool) :=
  [(aint_, false); (open_frame, false); (subtraction, true);
   (number_literal, false); (ellipsis, false); (subtraction, true);
   (number_literal, false); (close_frame, false)].

(** [ParseCsoInt]; the assertion that an [&int] stands at [begin] is the
    caller's obligation. *)
Definition ParseCsoInt (begin end' : nat) : ParsingResult :=
  let name := "ParseCsoInt" in
  let it := cursor begin end' in
  if scan_tokens_pack constrained_int_type_mask begin end' then
    let atype_node := Node_of (of_tk aint_) in
    if type_is tks (next 2 it) subtraction then
      let atype_node1 :=
        push_back atype_node
          (push_back (stmt (next 2 it)) (stmt (next 3 it))) in
      if type_is tks (next 5 it) subtraction then
        make_success name
          (push_back atype_node1
             (push_back (stmt (next 5 it)) (stmt (next 6 it))))
          (it_ (next 8 it))
      else
        make_success name (push_back atype_node1 (stmt (next 5 it)))
          (it_ (next 7 it))
    else
      let atype_node1 := push_back atype_node (stmt (next 2 it)) in
      if type_is tks (next 4 it) subtraction then
        make_success name
          (push_back atype_node1
             (push_back (stmt (next 4 it)) (stmt (next 5 it))))
          (it_ (next 7 it))
      else
        make_success name (push_back atype_node1 (stmt (next 4 it)))
          (it_ (next 6 it))
  else
    make_success_node name (Node_span (of_tk aint_) begin (S begin)).

Definition constrained_uint_type_mask : list (tk_enum * bool) :=
  [(auint_, false); (open_frame, false); (number_literal, false);
   (ellipsis, false); (number_literal, false); (close_frame, false)].

(** [ParseCsoUint]; the assertion that an [&uint] stands at [begin] is the
    caller's obligation. *)
Definition ParseCsoUint (begin end' : nat) : ParsingResult :=
  let name := "ParseCsoUint" in
  let it := cursor begin end' in
  if scan_tokens_pack constrained_uint_type_mask begin end' then
    let atype_node := Node_of (of_tk auint_) in
    make_success name
      (push_back (push_back atype_node (stmt (next 2 it)))
         (stmt (next 4 it)))
      (it_ (next 6 it))
  else
    make_success name (Node_of (of_tk auint_)) (it_ (next 1 it)).

(** [ParseCandiSpecialObject] and [ParseCsoPointer] call each other; the
    fuel bounds the nesting of [&pointer[...]]. *)
Fixpoint ParseCandiSpecialObject_fuel (fuel : nat) (begin end' : nat)
  : outcome ParsingResult :=
  match fuel with
  | 0 => OutOfFuel
  | S fuel' =>
    match kind begin with
    | atype_ => Ok (ParseCsoType begin end')
    | avalue_ => Ok (ParseCsoValue begin end')
    | aidentity_ => Ok (ParseCsoIdentity begin end')
    | aint_ => Ok (ParseCsoInt begin end')
    | auint_ => Ok (ParseCsoUint begin end')
    | areal_ => Ok (ParseCsoReal begin end')
    | aoctet_ => Ok (ParseCsoOctet begin end')
    | abit_ => Ok (ParseCsoBit begin end')
    | apointer_ =>
      (* ParseCsoPointer *)
      let name := "ParseCsoPointer" in
      let it := cursor begin end' in
      if find_forward tks (it_ it)
           [apointer_; open_frame; alnumus; close_frame] then
        Ok (make_success name
              (push_back (Node_of (of_tk apointer_)) (stmt (next 2 it)))
              (it_ (next 4 it)))
      else if find_forward tks (it_ it) [apointer_; open_frame] then
        parse_result <-
          ParseCandiSpecialObject_fuel fuel' (it_ (next 2 it)) end' ;;
        if res_valid parse_result then
          Ok (make_success name
                (push_back (Node_of (of_tk apointer_))
                   (res_node parse_result))
                (res_it parse_result + 1))
        else
          Throw (runtime_error
            "ParseCsoPointer: Invalid CSO Type in &pointer type constraint.")
      else
        Throw (runtime_error
          "ParseCsoPointer: Pointer must be contrained to a type.")
    | _ => Ok (make_error "ParseCandiSpecialObject" begin (at_ begin)
                 "ParseCandiSpecialObject: Invalid CSO.")
    end
  end.

Definition ParseCandiSpecialObject (begin end' : nat)
  : outcome ParsingResult :=
  ParseCandiSpecialObject_fuel (S (end' - begin)) begin end'.


Definition ParseCsoArray (begin end' : nat) : outcome ParsingResult :=
  let name := "ParseCsoArray" in
  let it := cursor begin end' in
  if find_forward tks (it_ it) [aarray_; open_frame; alnumus] then
    let node := push_back (Node_of (of_tk aarray_)) (stmt (next 2 it)) in
    if find_forward tks (it_ (next 3 it)) [comma; number_literal] then
      Ok (make_success name (push_back node (stmt (next 4 it)))
            (it_ (next 6 it)))
    else
      Throw (runtime_error
        "ParseCsoArray: aarray_ must have a value constraint. Invalid array size.")
  else if find_forward tks (it_ it) [aarray_; open_frame] then
    parse_result <- ParseCandiSpecialObject (it_ (next 2 it)) end' ;;
    if res_valid parse_result then
      let node :=
        push_back (Node_of (of_tk aarray_)) (res_node parse_result) in
      if find_forward tks (res_it parse_result) [comma; number_literal] then
        Ok (make_success name
              (push_back node
                 (stmt (cursor (res_it parse_result + 1) end')))
              (res_it parse_result + 3))
      else
        Throw (runtime_error
          "ParseCsoArray: aarray_ must have a value constraint. Invalid array size.")
    else
      Throw (runtime_error
        "ParseCsoArray: Invalid CSO Type in &array type constraint.")
  else
    Throw (runtime_error
      "ParseCsoArray: aarray_ must be contrained to a type.").

(** *** Value expressions *)

(** The try block around [build_statement]: every exception becomes an
    error result. *)
Definition ParseValueExpression (begin end' : nat)
  : outcome ParsingResult :=
  let name := "ParseValueExpression" in
  let expr_scope := find_open_statement tks (kind begin) eos begin end' in
  match build_statement tks begin (contained_end expr_scope) None with
  | Ok (Some expr_node) =>
    Ok (make_success name expr_node (scope_end expr_scope))
  | Ok None =>
    Ok (make_error name begin (at_ begin)
          "ParseValueExpression: Invalid statement.")
  | Throw _ =>
    Ok (make_error name begin (at_ begin)
          "ParseValueExpression: Invalid statement.")
  | OutOfFuel => OutOfFuel
  end.

(** *** Directives *)

Definition is_kind (pos : nat) (k : tk_enum) : bool :=
  tk_enum_beq (kind pos) k.

Definition ParseDirectiveType (begin end' : nat) : outcome ParsingResult :=
  let name := "ParseDirectiveType" in
  if negb (is_kind begin type_) then
    Ok (make_error name begin (at_ begin)
          "ParseDirectiveType: Expected a type directive.")
  else
  let cursor := next 1 (cursor begin end') in
  if negb (type_is tks cursor alnumus) then
    Ok (make_error name (it_ cursor) (deref cursor)
          "ParseIdentifierStatement: Expected an alnumus.")
  else if negb (type_is tks (next 1 cursor) simple_assignment) then
    Ok (make_error name (it_ (next 1 cursor)) (deref (next 1 cursor))
          "ParseIdentifierStatement: Expected a simple assignment token.")
  else if type_is tks (next 2 cursor) alnumus then
    let alnumus_literal := ParseAlnumusLiteral (it_ (next 2 cursor)) end' in
    if negb (res_valid alnumus_literal) then
      Ok (make_error name (it_ (next 2 cursor)) (deref (next 2 cursor))
            "ParseIdentifierStatement: Expected an alnumus.")
    else if negb (type_is tks (next 3 cursor) eos) then
      Ok (make_error name (it_ (next 3 cursor)) (deref (next 3 cursor))
            "ParseIdentifierStatement: Expected an eos.")
    else
      let node :=
        push_back
          (push_back
             (push_back
                (Node_span type_definition_ begin (it_ (next 3 cursor)))
                (Node_span (of_tk alnumus) (it_ cursor)
                   (it_ (next 1 cursor))))
             (Node_span (of_tk simple_assignment) (it_ (next 1 cursor))
                (it_ (next 2 cursor))))
          (Node_span (of_tk aint_) (it_ (next 2 cursor))
             (res_it alnumus_literal)) in
      Ok (make_success name node (res_it alnumus_literal + 2))
  else
    cso <- ParseCandiSpecialObject (it_ (next 2 cursor)) end' ;;
    if negb (res_valid cso) then
      Ok (make_error name (it_ (next 2 cursor)) (deref (next 2 cursor))
            "ParseIdentifierStatement: Expected a type expression.")
    else if negb (is_kind (res_it cso) eos) then
      Ok (make_error name (it_ (next 3 cursor)) (deref (next 3 cursor))
            "ParseIdentifierStatement: Expected an eos.")
    else
      let node :=
        push_back
          (push_back
             (push_back (Node_span type_definition_ begin (res_it cso + 1))
                (Node_span (of_tk alnumus) (it_ cursor)
                   (it_ (next 1 cursor))))
             (Node_span (of_tk simple_assignment) (it_ (next 1 cursor))
                (it_ (next 2 cursor))))
          (res_node cso) in
      Ok (make_success name node (res_it cso + 2)).

Definition ParseDirectiveVar (begin end' : nat) : outcome ParsingResult :=
  let name := "ParseDirectiveVar" in
  let cursor := cursor begin end' in
  if find_forward tks (it_ cursor) [var_; alnumus; eos] then
    (* Anon Var Decl *)
    let node :=
      push_back
        (Node_span anon_variable_definition_ begin (it_ (next 3 cursor)))
        (Node_span (of_tk alnumus) (it_ (next 1 cursor))
           (it_ (next 2 cursor))) in
    Ok (make_success name node (it_ (next 3 cursor)))
  else if find_forward tks (it_ cursor)
            [var_; alnumus; simple_assignment] then
    (* Anon Var Decl Assign: build the assignment expression *)
    expr <- ParseValueExpression (it_ (next 1 cursor)) end' ;;
    if negb (res_valid expr) then
      Ok (make_error name (it_ (next 1 cursor)) (deref (next 3 cursor))
            ("ParseDirectiveVar: Invalid var statement format. Assingment expression is invalid:"
               ++ res_error_message expr))
    else
      let node :=
        push_back
          (push_back
             (Node_span anon_variable_definition_assingment_ (it_ cursor)
                (res_it expr - 1))
             (Node_span (of_tk alnumus) (it_ (next 1 cursor))
                (it_ (next 2 cursor))))
          (res_node expr) in
      Ok (make_success name node (res_it expr))
  else if find_forward tks begin [var_; open_frame] then
    (* Constrained Variable Def *)
    let frame_scope :=
      find_statement tks open_frame close_frame (it_ (next 1 cursor))
        (end_ cursor) in
    let se := scope_end frame_scope in
    if find_forward tks se [alnumus] then
      if is_kind (se + 1) eos then
        let node :=
          push_back
            (push_back
               (Node_span constrained_variable_definition_ (it_ cursor)
                  (se + 1))
               (Node_span type_constraints_ (contained_begin frame_scope)
                  (contained_end frame_scope)))
            (Node_span (of_tk alnumus) se (se + 1)) in
        Ok (make_success name node (se + 2))
      else if is_kind (se + 1) simple_assignment then
        expr <- ParseValueExpression (se + 2) end' ;;
        if negb (res_valid expr) then
          Ok (make_error name (it_ (next 3 cursor)) (deref (next 3 cursor))
                "ParseDirectiveVar: Invalid var statement format.")
        else
          let node :=
            push_back
              (push_back
                 (push_back
                    (push_back
                       (Node_span constrained_variable_definition_
                          (it_ cursor) (res_it expr - 1))
                       (Node_span type_constraints_
                          (contained_begin frame_scope)
                          (contained_end frame_scope)))
                    (Node_span (of_tk alnumus) se (se + 1)))
                 (Node_span (of_tk simple_assignment) (se + 1) (se + 2)))
              (res_node expr) in
          Ok (make_success name node (res_it expr))
      else
        Ok (make_error name se (at_ se)
              "ParseDirectiveVar: Invalid var statement format.")
    else
      Ok (make_error name se (at_ se)
            "ParseDirectiveVar: Invalid var statement format.")
  else
    Ok (make_error name begin (at_ (begin + 1))
          "ParseDirectiveVar: Invalid var statement format. #var directive was not followed by an identity or type constraint.").

Definition ParseDirectiveReturn (begin end' : nat)
  : outcome ParsingResult :=
  let name := "ParseDirectiveReturn" in
  let statement_scope := find_statement tks return_ eos begin end' in
  if negb (valid statement_scope) then
    Ok (make_error name (scope_end statement_scope)
          (at_ (scope_end statement_scope))
          "ParseDirectiveReturn: Invalid return statement.")
  else
    r <- build_statement tks (contained_begin statement_scope)
           (contained_end statement_scope) None ;;
    n <- value r ;;
    let expr :=
      push_back
        (Node_span expression_ (contained_begin statement_scope)
           (contained_end statement_scope)) n in
    let node :=
      push_back
        (Node_span (of_tk return_) begin (contained_end statement_scope))
        expr in
    Ok (make_success name node (scope_end statement_scope)).

Definition ParseIdentifierStatement (begin end' : nat)
  : outcome ParsingResult :=
  let name := "ParseIdentifierStatement" in
  let it := begin in
  if negb (is_kind it alnumus) then
    Ok (make_error name it (at_ it)
          "ParseIdentifierStatement: Expected an alnumus.")
  else if negb (is_kind (it + 1) simple_assignment) then
    Ok (make_error name (it + 1) (at_ (it + 1))
          "ParseIdentifierStatement: Expected a simple assignment token.")
  else if negb (is_kind (it + 2) number_literal) then
    Ok (make_error name (it + 2) (at_ (it + 2))
          "ParseIdentifierStatement: Expected an alnumus.")
  else if negb (is_kind (it + 3) eos) then
    Ok (make_error name (it + 3) (at_ (it + 3))
          "ParseIdentifierStatement: Expected an eos.")
  else
    let node :=
      push_back
        (push_back
           (push_back (Node_span variable_assignment_ begin (it + 3))
              (Node_span (of_tk alnumus) it (it + 1)))
           (Node_span (of_tk simple_assignment) (it + 1) (it + 2)))
        (Node_span (of_tk number_literal) (it + 2) (it + 3)) in
    Ok (make_success name node (it + 4)).

(** *** Blocks *)

(** The body of the two lambdas [parse_statement] and
    [parse_open_statement]: delimit the statement with [finder], run the
    process on it, append its node and move the cursor.  The warning
    printed for an empty statement is output only. *)
Definition parse_statement
    (finder : tk_enum -> tk_enum -> nat -> nat -> ScopeResult)
    (parsing_process : nat -> nat -> outcome ParsingResult)
    (with_message : bool) (open close : tk_enum)
    (it end' : nat) (node : Node) : outcome (Node * nat) :=
  let statement_scope := finder open close it end' in
  if negb (valid statement_scope) then
    Throw (runtime_error "ParsePragmaticBlock: Invalid statement scope.")
  else
    parse_result <- parsing_process (scope_begin statement_scope)
                      (scope_end statement_scope) ;;
    if negb (res_valid parse_result) then
      Throw (runtime_error
        ("ParsePragmaticBlock: Invalid statement."
           ++ (if with_message then res_error_message parse_result
               else "")))
    else Ok (push_back node (res_node parse_result), res_it parse_result).

(** The while loop of [ParseFunctionalBlock]; one unit of fuel per
    statement. *)
Fixpoint ParseFunctionalBlock_loop (fuel : nat) (it end' : nat)
    (node : Node) : outcome ParsingResult :=
  match fuel with
  | 0 => OutOfFuel
  | S fuel' =>
    if (it <? end') && negb (is_kind it eof) then
      if is_kind it alnumus then
        st <- parse_statement (find_open_statement tks)
                ParseIdentifierStatement false alnumus eos it end' node ;;
        ParseFunctionalBlock_loop fuel' (snd st) end' (fst st)
      else if is_kind it return_ then
        st <- parse_statement (find_statement tks)
                ParseDirectiveReturn true return_ eos it end' node ;;
        ParseFunctionalBlock_loop fuel' (snd st) end' (fst st)
      else if is_kind it var_ then
        st <- parse_statement (find_statement tks)
                ParseDirectiveVar true var_ eos it end' node ;;
        ParseFunctionalBlock_loop fuel' (snd st) end' (fst st)
      else
        Ok (make_error "ParseFunctionalBlock" it (at_ it)
              "ParsePragmaticBlock: Invalid statement.")
    else Ok (make_success "ParseFunctionalBlock" node it)
  end.

Definition ParseFunctionalBlock (begin end' : nat)
  : outcome ParsingResult :=
  ParseFunctionalBlock_loop (S (end' - begin)) begin end'
    (Node_span functional_block_ begin end').

Definition ParseDirectiveFunc (begin end' : nat) : outcome ParsingResult :=
  let name := "ParseDirectiveFunc" in
  let cursor := cursor begin end' in
  if find_forward tks (it_ cursor) [func_; alnumus; open_list] then
    (* Shorthand Void Arg Method Definition *)
    let body_scope :=
      find_statement tks open_list close_list (it_ (next 2 cursor))
        (end_ cursor) in
    let se := scope_end body_scope in
    if is_kind se eos then
      block <- ParseFunctionalBlock (contained_begin body_scope)
                 (contained_end body_scope) ;;
      let node :=
        push_back
          (push_back
             (Node_span shorthand_void_method_definition_ (it_ cursor)
                (se + 2))
             (Node_span (of_tk alnumus) (it_ (next 1 cursor))
                (it_ (next 2 cursor))))
          (res_node block) in
      Ok (make_success name node (se + 1))
    else
      Ok (make_error name se (at_ se)
            ("[ParseDirectiveFunc]: Invalid func statement format. Expected an eos token ';' after functional block in function definition. Function name:"
               ++ lit tks (next 1 cursor)))
  else if find_forward tks (it_ cursor) [func_; alnumus; open_scope] then
    (* Unconstrained Method Definition *)
    let args_scope := find_scope tks (it_ (next 2 cursor)) (end_ cursor) in
    if is_kind (scope_end args_scope) open_list then
      let body_scope :=
        find_statement tks open_list close_list (scope_end args_scope)
          (end_ cursor) in
      let se := scope_end body_scope in
      if is_kind se eos then
        block <- ParseFunctionalBlock (contained_begin body_scope)
                   (contained_end body_scope) ;;
        let node :=
          push_back
            (push_back
               (push_back
                  (Node_span method_definition_ (it_ cursor) (se + 2))
                  (Node_span (of_tk alnumus) (it_ (next 1 cursor))
                     (it_ (next 2 cursor))))
               (Node_span arguments_ (contained_begin args_scope)
                  (contained_end args_scope)))
            (res_node block) in
        Ok (make_success name node (se + 1))
      else
        Ok (make_error name se (at_ se)
              "ParseDirectiveFunc: Invalid func statement format.")
    else
      Ok (make_error name (scope_end args_scope)
            (at_ (scope_end args_scope))
            "ParseDirectiveFunc: Invalid func statement format.")
  else if find_forward tks begin [func_; open_frame] then
    (* Constrained method definitions *)
    let frame_scope :=
      find_statement tks open_frame close_frame (it_ (next 1 cursor))
        (end_ cursor) in
    let fe := scope_end frame_scope in
    if find_forward tks fe [alnumus; open_list] then
      let body_scope :=
        find_statement tks open_list close_list (fe + 1) (end_ cursor) in
      let se := scope_end body_scope in
      if is_kind se eos then
        let node :=
          push_back
            (push_back
               (push_back
                  (Node_span shorthand_constrained_void_method_definition_
                     (it_ cursor) (se + 2))
                  (Node_span type_constraints_
                     (contained_begin frame_scope)
                     (contained_end frame_scope)))
               (Node_span (of_tk alnumus) fe (fe + 1)))
            (Node_span functional_block_ (contained_begin body_scope)
               (contained_end body_scope)) in
        Ok (make_success name node (se + 1))
      else
        Ok (make_error name se (at_ se)
              "ParseDirectiveFunc: Invalid func statement format.")
    else if find_forward tks fe [alnumus; open_scope] then
      let args_scope := find_scope tks (fe + 1) (end_ cursor) in
      if is_kind (scope_end args_scope) open_list then
        let body_scope :=
          find_statement tks open_list close_list (scope_end args_scope)
            (end_ cursor) in
        let se := scope_end body_scope in
        if is_kind se eos then
          let node :=
            push_back
              (push_back
                 (push_back
                    (push_back
                       (Node_span method_definition_ (it_ cursor) (se + 2))
                       (Node_span type_constraints_
                          (contained_begin frame_scope)
                          (contained_end frame_scope)))
                    (Node_span (of_tk alnumus) fe (fe + 1)))
                 (Node_span arguments_ (contained_begin args_scope)
                    (contained_end args_scope)))
              (Node_span functional_block_ (contained_begin body_scope)
                 (contained_end body_scope)) in
          Ok (make_success name node (se + 1))
        else
          Ok (make_error name se (at_ se)
                "ParseDirectiveFunc: Invalid func statement format.")
      else
        Ok (make_error name (scope_end args_scope)
              (at_ (scope_end args_scope))
              "ParseDirectiveFunc: Invalid func statement format.")
    else
      Ok (make_error name fe (at_ fe)
            "ParseDirectiveVar: Invalid var statement format.")
  else
    Ok (make_error name begin (at_ begin)
          "ParseDirectiveFunc: Invalid func statement format.").

(** [ParseDirectiveClass], given the parser of the pragmatic block that
    is its body. *)
Definition ParseDirectiveClass_with
    (block : nat -> nat -> outcome ParsingResult) (begin end' : nat)
  : outcome ParsingResult :=
  let name := "ParseDirectiveClass" in
  if negb (is_kind begin class_) then
    Ok (make_error name begin (at_ begin)
          "ParseDirectiveClass: Expected a class directive.")
  else
  let it := begin + 1 in
  if negb (is_kind it alnumus) then
    Ok (make_error name it (at_ it)
          "ParseDirectiveClass: Expected an alnumus.")
  else if negb (is_kind (S it) open_list) then
    Ok (make_error name (S it) (at_ (S it))
          "ParseDirectiveClass: Expected an open list scope.")
  else
    let class_scope := find_list tks (S it) end' in
    class_definition <- block (contained_begin class_scope)
                          (contained_end class_scope) ;;
    if negb (res_valid class_definition) then
      Ok (make_error name (res_it class_definition)
            (at_ (res_it class_definition))
            "ParseDirectiveClass: Invalid class definition.")
    else if negb (is_kind (scope_end class_scope) eos) then
      Ok (make_error name (res_it class_definition)
            (at_ (res_it class_definition))
            "ParseDirectiveClass: Expected an eos.")
    else
      let node :=
        push_back
          (push_back
             (Node_span class_definition_ begin (scope_end class_scope))
             (Node_span (of_tk alnumus) it (S it)))
          (res_node class_definition) in
      Ok (make_success name node (scope_end class_scope + 1)).

(** The while loop of [ParsePragmaticBlock]; one unit of fuel per
    statement and per nested class body. *)
Fixpoint ParsePragmaticBlock_loop (fuel : nat) (it end' : nat)
    (node : Node) : outcome ParsingResult :=
  match fuel with
  | 0 => OutOfFuel
  | S fuel' =>
    let block b e :=
      ParsePragmaticBlock_loop fuel' b e (Node_span pragmatic_block_ b e) in
    if (it <? end') && negb (is_kind it eof) then
      if is_kind it alnumus then
        st <- parse_statement (find_open_statement tks)
                ParseIdentifierStatement false alnumus eos it end' node ;;
        ParsePragmaticBlock_loop fuel' (snd st) end' (fst st)
      else if is_kind it type_ then
        st <- parse_statement (find_statement tks)
                ParseDirectiveType true type_ eos it end' node ;;
        ParsePragmaticBlock_loop fuel' (snd st) end' (fst st)
      else if is_kind it var_ then
        st <- parse_statement (find_statement tks)
                ParseDirectiveVar true var_ eos it end' node ;;
        ParsePragmaticBlock_loop fuel' (snd st) end' (fst st)
      else if is_kind it class_ then
        st <- parse_statement (find_statement tks)
                (ParseDirectiveClass_with block) true class_ eos it end'
                node ;;
        ParsePragmaticBlock_loop fuel' (snd st) end' (fst st)
      else if is_kind it func_ then
        st <- parse_statement (find_statement tks)
                ParseDirectiveFunc true func_ eos it end' node ;;
        ParsePragmaticBlock_loop fuel' (snd st) end' (fst st)
      else
        Ok (make_error "ParsePragmaticBlock" it (at_ it)
              "ParsePragmaticBlock: Invalid statement.")
    else Ok (make_success "ParsePragmaticBlock" node it)
  end.

Definition ParsePragmaticBlock (begin end' : nat)
  : outcome ParsingResult :=
  ParsePragmaticBlock_loop (S (end' - begin)) begin end'
    (Node_span pragmatic_block_ begin end').


End Processes.

(** ** Loading a source file *)

(** What [std::ifstream] finds under a name: nothing it can open, a file
    whose read fails, or a file with its bytes.  [why] stands for
    [std::strerror(errno)]. *)
Inductive file : Set :=
  | cannot_open (why : string)
  | cannot_read (size : nat) (why : string)
  | readable (content : list byte).

Definition NUL : byte := x00.

Definition back (chars : list byte) : byte := last chars NUL.

(** [sl::load_file_to_char8_vector(name)] in a file system [fs]. *)
Definition load_file_to_char8_vector (fs : string -> file) (name : string)
  : outcome (list byte) :=
  match fs name with
  | cannot_open why => Throw (runtime_error (name ++ ": " ++ why))
  | cannot_read size why =>
    if size =? 0 then Ok []
    else Throw (runtime_error (name ++ ": " ++ why))
  | readable content =>
    let size := List.length content in
    if size =? 0 then Ok []
    else
      let chars := content in
      if negb (Byte.eqb (back chars) NUL) then Ok (chars ++ [NUL])%list
      else Ok chars
  end.

(** ** Vocabulary of the properties *)

Definition is_unary_kind (k : node_enum) : bool :=
  match k with
  | of_tk t => Operation_beq (operation_of t) unary_
  | _ => false
  end.

Definition is_binary_kind (k : node_enum) : bool :=
  match k with
  | of_tk t => Operation_beq (operation_of t) binary_
  | _ => false
  end.

(** [P kind children] holds at every node of the tree. *)
Fixpoint all_nodes (P : node_enum -> nat -> bool) (n : Node) : bool :=
  match n with
  | mkNode k _ cs => P k (List.length cs) && forallb (all_nodes P) cs
  end.

(** Arity by kind: two children under a binary operator, one under a
    unary operator. *)
Definition kind_arity (k : node_enum) (children : nat) : bool :=
  if is_binary_kind k then children =? 2
  else if is_unary_kind k then children =? 1
  else true.

(** Arity by position: a leaf, one child under a unary operator, or two
    children. *)
Definition positional_arity (k : node_enum) (children : nat) : bool :=
  match children with
  | 0 => true
  | 1 => is_unary_kind k
  | 2 => true
  | _ => false
  end.

Definition arity_ok : Node -> bool := all_nodes kind_arity.
Definition shaped : Node -> bool := all_nodes positional_arity.

(** An unfinished pass holds its left operand and nothing else. *)
Definition pass_ok (lp : option Node) : Prop :=
  match lp with
  | None => True
  | Some p => exists c, body p = [c] /\ shaped c = true
  end.

Definition is_atom (k : tk_enum) : bool :=
  match k with number_literal | alnumus => true | _ => false end.


(** The tree [build_statement] gives for a whole token vector. *)
Definition parse (tks : tk_vector_t) : option Ast :=
  match build_statement tks 0 (List.length tks) None with
  | Ok (Some n) => Some (ast_of tks n)
  | _ => None
  end.


(** *** Flat expressions *)

Definition unary_at (tks : tk_vector_t) (p : nat) : bool :=
  Operation_beq (operation_of (kind_at tks p)) unary_.
Definition binary_at (tks : tk_vector_t) (p : nat) : bool :=
  Operation_beq (operation_of (kind_at tks p)) binary_.
Definition atom_at (tks : tk_vector_t) (p : nat) : bool :=
  is_atom (kind_at tks p).
Definition right_at (tks : tk_vector_t) (p : nat) : bool :=
  Associativity_beq (associativity_of (kind_at tks p)) right_.
Definition importance_at (tks : tk_vector_t) (p : nat) : nat :=
  importance_of (kind_at tks p).

(** The one-token node of the token at [p]. *)
Definition leaf_at (tks : tk_vector_t) (p : nat) : Node :=
  Node_span (of_tk (kind_at tks p)) p (S p).

(** The operand [x] completes the pass [lp] of the operator at [q]. *)
Definition attach (tks : tk_vector_t) (q : nat) (lp x : Node) : Node :=
  if right_at tks q then push_front lp x else push_back lp x.

(** The operation of the pass [lp] of the operator at [q], finished with
    the operand [x]. *)
Definition finished (tks : tk_vector_t) (q : nat) (lp x : Node) : Node :=
  if right_at tks q
  then push_back (push_back (Node_of (type lp)) x) (front lp)
  else push_back (push_back (Node_of (type lp)) (front lp)) x.

(** An operand starts at [p] and ends before [q]: a number or an
    identifier, or a unary operator with one behind it. *)
Definition operand (tks : tk_vector_t) (e p q : nat) : Prop :=
  (p < e /\ atom_at tks p = true /\ q = p + 1) \/
  (p + 1 < e /\ unary_at tks p = true /\ atom_at tks (p + 1) = true /\
   q = p + 2).

(** From the binary operator at [q] on, operands and binary operators
    alternate up to the end [e]. *)
Inductive chain (tks : tk_vector_t) (e : nat) : nat -> Prop :=
  | chain_last q :
      q < e -> binary_at tks q = true -> operand tks e (q + 1) e ->
      chain tks e q
  | chain_more q q' :
      q < e -> binary_at tks q = true -> operand tks e (q + 1) q' ->
      chain tks e q' -> chain tks e q.

(** A flat expression: operands separated by binary operators. *)
Definition flat (tks : tk_vector_t) (b e : nat) : Prop :=
  operand tks e b e \/ exists q, operand tks e b q /\ chain tks e q.

(** A pass of a binary operator that holds its left operand. *)
Definition pass_good (lp : Node) : Prop :=
  is_binary_kind (type lp) = true /\
  exists c, body lp = [c] /\ arity_ok c = true.

Definition builds_at (tks : tk_vector_t) (e q : nat) : Prop :=
  forall fuel lp, e - q < fuel -> pass_good lp ->
  exists n, build_statement_fuel tks fuel q e (Some lp) = Ok (Some n) /\
            arity_ok n = true.

Definition builds_from (tks : tk_vector_t) (e p : nat) : Prop :=
  forall fuel, e - p < fuel ->
  exists n, build_statement_fuel tks fuel p e None = Ok (Some n) /\
            arity_ok n = true.

(** No operand follows the operator at [q]: the range ends, a unary
    operator ends the range, a parenthesis is mismatched or empty, or the
    next token cannot start an operand. *)
Definition missing_operand (tks : tk_vector_t) (e q : nat) : Prop :=
  e = q + 1 \/
  (is_unary tks (cursor (q + 1) e) = true /\ e = q + 2) \/
  (type_is tks (cursor (q + 1) e) open_scope = true /\
   (valid (find_scope tks (q + 1) e) = false \/
    is_empty (find_scope tks (q + 1) e) = true)) \/
  (type_is tks (cursor (q + 1) e) number_literal = false /\
   type_is tks (cursor (q + 1) e) alnumus = false /\
   is_unary tks (cursor (q + 1) e) = false /\
   type_is tks (cursor (q + 1) e) open_scope = false).






(** *** Token vectors of the examples *)

Definition num (s : string) : Tk := tok number_literal s.
Definition name (s : string) : Tk := tok alnumus s.

(** [1 + 1 * 1] *)
Definition sum_of_product : tk_vector_t :=
  [num "1"; tok addition "+"; num "1"; tok multiplication "*"; num "1"].


(** [a = b = c] *)
Definition assignment_chain : tk_vector_t :=
  [name "a"; tok simple_assignment "="; name "b";
   tok simple_assignment "="; name "c"].

(** [a + b - c] *)
Definition additive_chain : tk_vector_t :=
  [name "a"; tok addition "+"; name "b"; tok subtraction "-"; name "c"].

(** [foo.bar()] *)
Definition member_call : tk_vector_t :=
  [name "foo"; tok period "."; name "bar"; tok open_scope "(";
   tok close_scope ")"].

(** [a.b().c] *)
Definition member_call_member : tk_vector_t :=
  [name "a"; tok period "."; name "b"; tok open_scope "(";
   tok close_scope ")"; tok period "."; name "c"].

(** The lone operator [*] *)
Definition lone_operator : tk_vector_t := [tok multiplication "*"].





(** [#var foo = 1 + c * (3 / 4);] *)
Definition var_statement : tk_vector_t :=
  [tok var_ "#var"; name "foo"; tok simple_assignment "="; num "1";
   tok addition "+"; name "c"; tok multiplication "*";
   tok open_scope "("; num "3"; tok division "/"; num "4";
   tok close_scope ")"; tok eos ";"; tok eof ""].

(** The tree of the initialiser [1 + c * (3 / 4)] *)
Definition initialiser_tree : Ast :=
  Op (of_tk addition)
    [Atom (of_tk number_literal) "1";
     Op (of_tk multiplication)
       [Atom (of_tk alnumus) "c";
        Op (of_tk division)
          [Atom (of_tk number_literal) "3";
           Atom (of_tk number_literal) "4"]]].


(** [#return a; #var b;] *)
Definition return_var_block : tk_vector_t :=
  [tok return_ "#return"; name "a"; tok eos ";"; tok var_ "#var";
   name "b"; tok eos ";"; tok eof ""].

(** [&int[-1...5]] and [&uint[-1...5]] *)
Definition constraint_tail : tk_vector_t :=
  [tok open_frame "["; tok subtraction "-"; num "1"; tok ellipsis "...";
   num "5"; tok close_frame "]"].
Definition int_negated : tk_vector_t := tok aint_ "&int" :: constraint_tail.
Definition uint_negated : tk_vector_t :=
  tok auint_ "&uint" :: constraint_tail.

(** [&uint[1...5]] *)
Definition uint_plain : tk_vector_t :=
  [tok auint_ "&uint"; tok open_frame "["; num "1"; tok ellipsis "...";
   num "5"; tok close_frame "]"].

(** A file system with an empty file and a file that holds [ab]. *)
Definition two_files (name : string) : file :=
  if String.eqb name "empty.candi" then readable []
  else if String.eqb name "ab.candi" then readable [x61; x62]
  else cannot_open "No such file or directory".

(** A bound of a range constraint: the number at [p], or the unary minus
    at [p] over the number behind it. *)
Definition bound (p : nat) : Node := Node_span (of_tk number_literal) p (S p).
Definition negated_bound (p : nat) : Node :=
  push_back (Node_span (of_tk subtraction) p (S p)) (bound (S p)).

Definition sigil_node (k : tk_enum) (bounds : list Node) : Node :=
  mkNode (of_tk k) None bounds.

(** ** Strings of the support library *)

(** A character pointer is the array it points into, read from the
    pointer on: the bytes up to the end of the array.  Reading past the
    array is undefined in C++, [None] here, and so is the overflow of the
    [int] index, taken to have 32 bits. *)
Definition INT_MAX : Z := 2147483647.

(** The loop of [sl::to_u8vec]: [rest] is the array from [str + i] on,
    [vec] the vector pushed to so far. *)
Fixpoint to_u8vec_loop (rest : list byte) (i : Z) (vec : list byte)
  : option (list byte) :=
  match rest with
  | [] => None
  | c :: rest' =>
    if Byte.eqb c NUL then Some vec
    else if (i =? INT_MAX)%Z then None
    else to_u8vec_loop rest' (i + 1)%Z (vec ++ [c])%list
  end.

Definition to_u8vec (str : list byte) : option (list byte) :=
  to_u8vec_loop str 0%Z [].

(** A string without NUL that an [int] can index. *)
Definition c_string (s : list byte) : Prop :=
  ~ In NUL s /\ (Z.of_nat (List.length s) <= INT_MAX)%Z.

(** ** Vocabulary of the further properties *)

(** A result of the builder: a node, or a [std::runtime_error]. *)
Definition node_or_error (o : outcome (option Node)) : Prop :=
  (exists n, o = Ok (Some n)) \/ (exists msg, o = Throw (runtime_error msg)).

(** [n] pairs of parentheses around the range: the scope opened at [b]
    closes at [e], the one opened at [b + 1] at [e - 1], and so on. *)
Fixpoint wrapped (tks : tk_vector_t) (b e n : nat) : Prop :=
  match n with
  | 0 => True
  | S n' =>
    kind_at tks b = open_scope /\
    find_scope tks b e = mkScope true b e /\
    b + 2 < e /\
    wrapped tks (S b) (pred e) n'
  end.

(** [n] binary operators from [q] on, each followed by a number or an
    identifier and none followed by a more important operator. *)
Fixpoint level_chain (tks : tk_vector_t) (q n : nat) : Prop :=
  match n with
  | 0 => True
  | S n' =>
    binary_at tks q = true /\ atom_at tks (q + 1) = true /\
    (n' <> 0 -> importance_at tks (q + 2) <= importance_at tks q) /\
    level_chain tks (q + 2) n'
  end.

(** The fold of such a chain from the left: each operator takes the tree
    so far and its operand, in this order when it associates to the left
    and swapped when it associates to the right. *)
Fixpoint folded (tks : tk_vector_t) (acc : Ast) (q n : nat) : Ast :=
  match n with
  | 0 => acc
  | S n' =>
    let x := ast_of tks (leaf_at tks (q + 1)) in
    folded tks
      (Op (of_tk (kind_at tks q))
          (if right_at tks q then [x; acc] else [acc; x]))
      (q + 2) n'
  end.

(** A token of a flat expression. *)
Definition expression_token (k : tk_enum) : bool :=
  is_atom k || Operation_beq (operation_of k) unary_
  || Operation_beq (operation_of k) binary_.

(** No operator of the range is as weak as an assignment. *)
Definition above_assignment (tks : tk_vector_t) (b e : nat) : Prop :=
  forall q, b <= q < e -> binary_at tks q = true ->
    importance_of simple_assignment < importance_at tks q.

(** A token a statement scan walks over at depth zero: no bracket, not
    the terminator, and not the opening kind unless it may repeat. *)
Definition passes (repeats : bool) (open close k : tk_enum) : bool :=
  match opener k, closer k with
  | None, None =>
    negb (tk_enum_beq k close) && (repeats || negb (tk_enum_beq k open))
  | _, _ => false
  end.

(** [kinds] stand at [p], [p + 1], ... *)
Fixpoint kinds_at (tks : tk_vector_t) (p : nat) (kinds : list tk_enum)
  : Prop :=
  match kinds with
  | [] => True
  | k :: ks => kind_at tks p = k /\ kinds_at tks (S p) ks
  end.


(** The kinds [ParseCandiSpecialObject] dispatches on. *)
Definition is_special_object (k : tk_enum) : bool :=
  match k with
  | atype_ | avalue_ | aidentity_ | aint_ | auint_ | areal_ | aoctet_
  | abit_ | apointer_ => true
  | _ => false
  end.

(** The sigils whose process returns the one-token leaf. *)
Definition is_plain_sigil (k : tk_enum) : bool :=
  match k with
  | atype_ | avalue_ | aidentity_ | areal_ | aoctet_ | abit_ => true
  | _ => false
  end.

(** The sigils that may stand without a constraint. *)
Definition is_bare_sigil (k : tk_enum) : bool :=
  match k with
  | atype_ | avalue_ | aidentity_ | aint_ | auint_ | areal_ | aoctet_
  | abit_ => true
  | _ => false
  end.

(** The tokens of an identifier statement, [name = number ;]. *)
Definition identifier_statement_head : list tk_enum :=
  [alnumus; simple_assignment; number_literal; eos].

(** The tokens of the type alias [#type name = other ;]. *)
Definition type_alias_head : list tk_enum :=
  [type_; alnumus; simple_assignment; alnumus; eos].

(** [n] levels of [&pointer] with an opening frame from [p] on, around a
    sigil that stands alone. *)
Fixpoint pointer_chain (tks : tk_vector_t) (p n : nat) : Prop :=
  match n with
  | 0 => is_plain_sigil (kind_at tks p) = true
  | S n' =>
    kind_at tks p = apointer_ /\ kind_at tks (p + 1) = open_frame /\
    pointer_chain tks (p + 2) n'
  end.

(** [n] pointer nodes around [inner]. *)
Fixpoint pointer_node (inner : Node) (n : nat) : Node :=
  match n with
  | 0 => inner
  | S n' => push_back (Node_of (of_tk apointer_)) (pointer_node inner n')
  end.

(** The node of the type alias at [p]; its third child has the kind
    [aint_] whatever the identifier names. *)
Definition type_alias_node (p : nat) : Node :=
  mkNode type_definition_ (Some (p, p + 4))
    [Node_span (of_tk alnumus) (p + 1) (p + 2);
     Node_span (of_tk simple_assignment) (p + 2) (p + 3);
     Node_span (of_tk aint_) (p + 3) (p + 4)].

(** The node of the declaration [#var name ;] at [p]. *)
Definition declaration_node (p : nat) : Node :=
  mkNode anon_variable_definition_ (Some (p, p + 3))
    [Node_span (of_tk alnumus) (p + 1) (p + 2)].

(** The node of the assignment [name = number ;] at [p]. *)
Definition assignment_node (p : nat) : Node :=
  mkNode variable_assignment_ (Some (p, p + 3))
    [Node_span (of_tk alnumus) p (p + 1);
     Node_span (of_tk simple_assignment) (p + 1) (p + 2);
     Node_span (of_tk number_literal) (p + 2) (p + 3)].

(** The node of [#var name = E ;] at [p], with its [;] at [s] and [n]
    the tree of [E]: the name, and the assignment over [n] and the name. *)
Definition initialised_node (p s : nat) (n : Node) : Node :=
  mkNode anon_variable_definition_assingment_ (Some (p, s))
    [Node_span (of_tk alnumus) (p + 1) (p + 2);
     mkNode (of_tk simple_assignment) (Some (p + 2, p + 3))
       [n; Node_span (of_tk alnumus) (p + 1) (p + 2)]].

(** The node of [#return E ;] at [p], with its [;] at [s] and [n] the
    tree of [E]. *)
Definition return_node (p s : nat) (n : Node) : Node :=
  mkNode (of_tk return_) (Some (p, s))
    [mkNode expression_ (Some (p + 1, s)) [n]].

(** Statements in a row from [p] up to [stop], which is the end [e] of
    the range or an [eof] token before it, and their nodes in order:
    declarations [#var name ;], assignments [name = number ;], variables
    initialised with a flat expression without assignment operators, and,
    in a functional block, returns of a flat expression. *)
Inductive statements (tks : tk_vector_t) (functional : bool) (e : nat)
  : nat -> nat -> list Node -> Prop :=
  | statements_end p :
      p = e \/ (p < e /\ kind_at tks p = eof) ->
      statements tks functional e p p []
  | statements_declaration p stop nodes :
      kinds_at tks p [var_; alnumus; eos] -> p + 3 <= e ->
      statements tks functional e (p + 3) stop nodes ->
      statements tks functional e p stop (declaration_node p :: nodes)
  | statements_assignment p stop nodes :
      kinds_at tks p identifier_statement_head -> p + 4 <= e ->
      statements tks functional e (p + 4) stop nodes ->
      statements tks functional e p stop (assignment_node p :: nodes)
  | statements_initialised p s n stop nodes :
      kinds_at tks p [var_; alnumus; simple_assignment] ->
      flat tks (p + 3) s -> above_assignment tks (p + 3) s ->
      kind_at tks s = eos -> s < e ->
      build_statement tks (p + 3) s None = Ok (Some n) ->
      statements tks functional e (S s) stop nodes ->
      statements tks functional e p stop (initialised_node p s n :: nodes)
  | statements_return p s n stop nodes :
      functional = true ->
      kind_at tks p = return_ -> flat tks (p + 1) s ->
      kind_at tks s = eos -> s < e ->
      build_statement tks (p + 1) s None = Ok (Some n) ->
      statements tks functional e (S s) stop nodes ->
      statements tks functional e p stop (return_node p s n :: nodes).

(** *** Token vectors of the further examples *)

(** [((1 + 1))] *)
Definition wrapped_sum : tk_vector_t :=
  [tok open_scope "("; tok open_scope "("; num "1"; tok addition "+";
   num "1"; tok close_scope ")"; tok close_scope ")"].

(** [a - b - c - d] *)
Definition subtraction_chain : tk_vector_t :=
  [name "a"; tok subtraction "-"; name "b"; tok subtraction "-"; name "c";
   tok subtraction "-"; name "d"].

(** [a = b = c = d] *)
Definition long_assignment_chain : tk_vector_t :=
  [name "a"; tok simple_assignment "="; name "b";
   tok simple_assignment "="; name "c"; tok simple_assignment "=";
   name "d"].

(** [a - b * c - d] *)
Definition difference_of_product : tk_vector_t :=
  [name "a"; tok subtraction "-"; name "b"; tok multiplication "*";
   name "c"; tok subtraction "-"; name "d"].

(** [f(+)] *)
Definition call_of_operator : tk_vector_t :=
  [name "f"; tok open_scope "("; tok addition "+"; tok close_scope ")"].

(** [1 + 2 * 3;] *)
Definition sum_statement : tk_vector_t :=
  [num "1"; tok addition "+"; num "2"; tok multiplication "*"; num "3";
   tok eos ";"; tok eof ""].


(** [&pointer[&pointer[&type;;], with [;] where the closing frames
    belong. *)
Definition pointer_without_frames : tk_vector_t :=
  [tok apointer_ "&pointer"; tok open_frame "["; tok apointer_ "&pointer";
   tok open_frame "["; tok atype_ "&type"; tok eos ";"; tok eos ";";
   tok eof ""].

(** [&pointer[T]] *)
Definition pointer_to_name : tk_vector_t :=
  [tok apointer_ "&pointer"; tok open_frame "["; name "T";
   tok close_frame "]"; tok eof ""].

(** [&pointer[T;] *)
Definition pointer_to_name_unclosed : tk_vector_t :=
  [tok apointer_ "&pointer"; tok open_frame "["; name "T"; tok eos ";";
   tok eof ""].

(** [&array[T, 5;], with [;] where the closing frame belongs. *)
Definition array_without_frame : tk_vector_t :=
  [tok aarray_ "&array"; tok open_frame "["; name "T"; tok comma ",";
   num "5"; tok eos ";"; tok eof ""].

(** [&array[T]] *)
Definition array_without_size : tk_vector_t :=
  [tok aarray_ "&array"; tok open_frame "["; name "T";
   tok close_frame "]"; tok eof ""].

(** [#type A = B; #var x;] *)
Definition alias_then_declaration : tk_vector_t :=
  [tok type_ "#type"; name "A"; tok simple_assignment "="; name "B";
   tok eos ";"; tok var_ "#var"; name "x"; tok eos ";"].

(** [#type A = &uint;] *)
Definition type_of_sigil : tk_vector_t :=
  [tok type_ "#type"; name "A"; tok simple_assignment "=";
   tok auint_ "&uint"; tok eos ";"; tok eof ""].

(** [#type A = &array[T, 5];] *)
Definition type_of_array : tk_vector_t :=
  [tok type_ "#type"; name "A"; tok simple_assignment "=";
   tok aarray_ "&array"; tok open_frame "["; name "T"; tok comma ",";
   num "5"; tok close_frame "]"; tok eos ";"; tok eof ""].

(** [#var x = 1 + 2 * 3;] *)
Definition flat_var_statement : tk_vector_t :=
  [tok var_ "#var"; name "x"; tok simple_assignment "="; num "1";
   tok addition "+"; num "2"; tok multiplication "*"; num "3";
   tok eos ";"; tok eof ""].



(** [#func f { #if };] *)
Definition method_of_if : tk_vector_t :=
  [tok func_ "#func"; name "f"; tok open_list "{"; tok if_ "#if";
   tok close_list "}"; tok eos ";"; tok eof ""].

(** [#func [&int] f { foo(); };] *)
Definition constrained_method : tk_vector_t :=
  [tok func_ "#func"; tok open_frame "["; tok aint_ "&int";
   tok close_frame "]"; name "f"; tok open_list "{"; name "foo";
   tok open_scope "("; tok close_scope ")"; tok eos ";";
   tok close_list "}"; tok eos ";"; tok eof ""].




(** The bytes [ab], a NUL, and [c]. *)
Definition ab_NUL_c : list byte := [x61; x62; x00; x63].

(** ** Vocabulary of the properties of whole expressions and processes *)




(** The token at [p] is taken as an operand on its own: a number or an
    identifier, or, at the start of an expression, where the builder does
    not look at the kind, any token but a unary operator and an opening
    parenthesis. *)
Definition single (tks : tk_vector_t) (first : bool) (p : nat) : Prop :=
  if first
  then unary_at tks p = false /\ kind_at tks p <> open_scope
  else atom_at tks p = true.

(** An operand as a pass of the builder reads it, from [p] up to the
    operator at [r]: a single token; a single token with the parenthesised
    arguments of a call; a unary operator with the token behind it; or a
    parenthesised group that is not empty. *)
Inductive operand_at (tks : tk_vector_t) (first : bool) (e : nat)
  : nat -> nat -> Prop :=
  | operand_single p :
      p < e -> single tks first p -> kind_at tks (p + 1) <> open_scope ->
      operand_at tks first e p (p + 1)
  | operand_call p r :
      p + 1 < e -> single tks first p ->
      kind_at tks (p + 1) = open_scope ->
      find_scope tks (p + 1) e = mkScope true (p + 1) r ->
      operand_at tks first e p r
  | operand_unary p :
      p + 1 < e -> unary_at tks p = true ->
      kind_at tks (p + 2) <> open_scope ->
      operand_at tks first e p (p + 2)
  | operand_group p r :
      p < e -> kind_at tks p = open_scope ->
      find_scope tks p e = mkScope true p r -> p + 2 < r ->
      kind_at tks r <> open_scope ->
      operand_at tks first e p r.

(** The malformed expressions the builder detects.  [malformed b e]: the
    expression in the range; [dangles e q]: the rest of an expression from
    the operator at [q] on.  Operands and operators are read from the left;
    somewhere an operator misses its operand, the parenthesis of a call or
    of a group does not close, a group is empty, or the contents of a
    group are malformed. *)
Inductive malformed (tks : tk_vector_t) : nat -> nat -> Prop :=
  | malformed_mismatch b e :
      type_is tks (cursor b e) open_scope = true ->
      valid (find_scope tks b e) = false -> malformed tks b e
  | malformed_empty b e :
      type_is tks (cursor b e) open_scope = true ->
      is_empty (find_scope tks b e) = true -> malformed tks b e
  | malformed_inside b e r :
      b < e -> kind_at tks b = open_scope ->
      find_scope tks b e = mkScope true b r ->
      malformed tks (S b) (pred r) -> malformed tks b e
  | malformed_arguments b e :
      b + 1 < e -> single tks true b ->
      kind_at tks (b + 1) = open_scope ->
      valid (find_scope tks (b + 1) e) = false -> malformed tks b e
  | malformed_later b e r :
      operand_at tks true e b r -> r < e -> dangles tks e r ->
      malformed tks b e
with dangles (tks : tk_vector_t) : nat -> nat -> Prop :=
  | dangles_here e q :
      q < e -> missing_operand tks e q -> dangles tks e q
  | dangles_arguments e q :
      q + 2 < e -> atom_at tks (q + 1) = true ->
      kind_at tks (q + 2) = open_scope ->
      valid (find_scope tks (q + 2) e) = false -> dangles tks e q
  | dangles_inside e q r :
      q + 1 < e -> kind_at tks (q + 1) = open_scope ->
      find_scope tks (q + 1) e = mkScope true (q + 1) r ->
      kind_at tks r <> open_scope ->
      r < e \/ right_at tks q = false ->
      malformed tks (q + 2) (pred r) -> dangles tks e q
  | dangles_later e q r :
      q < e -> operand_at tks false e (q + 1) r -> r < e ->
      dangles tks e r -> dangles tks e q.

Scheme malformed_dangles := Minimality for malformed Sort Prop
  with dangles_malformed := Minimality for dangles Sort Prop.

Combined Scheme malformed_mutual from malformed_dangles, dangles_malformed.






(** *** Arithmetic expressions *)

(** The syntax of an arithmetic expression: operands separated by
    operators, an operand being one token or an expression in
    parentheses. *)
Inductive arith_operand : Set :=
  | Token (t : Tk)
  | Parens (open : Tk) (x : arith) (close : Tk)
with arith : Set :=
  | Last (x : arith_operand)
  | Then (x : arith_operand) (op : Tk) (rest : arith).

Scheme arith_operand_arith := Induction for arith_operand Sort Prop
  with arith_arith_operand := Induction for arith Sort Prop.

Combined Scheme arith_mutual from arith_operand_arith, arith_arith_operand.

















(** *** The parsing processes *)













(** * Properties *)

(** ** Ranges of the scope finders *)

Lemma scan_scope_bound tks want n : forall pos d p,
  scan_scope tks want n pos d = Some p -> pos < p <= pos + n.
Proof.
  induction n as [|n IH]; intros pos d p H; simpl in H; [discriminate|].
  destruct (opener (kind_at tks pos)).
  - apply IH in H. lia.
  - destruct (closer (kind_at tks pos)).
    + destruct (depth_of d f =? 0); [discriminate|].
      destruct (family_eqb f want && (depth_of (leave f d) want =? 0)).
      * destruct (level (leave f d)); inversion H; subst; lia.
      * apply IH in H. lia.
    + apply IH in H. lia.
Qed.

(** Whatever the search finds, the scope starts where it was asked to and
    ends within the range: at its end, or past one inner token pair. *)
Lemma find_scope_of_range tks want open b e :
  let s := find_scope_of tks want open b e in
  scope_begin s = b /\ scope_end s <= e /\
  (scope_end s = e \/ b + 2 <= scope_end s).
Proof.
  unfold find_scope_of.
  destruct ((b <? e) && tk_enum_beq (kind_at tks b) open) eqn:Hc;
    [|simpl; auto].
  apply andb_true_iff in Hc. destruct Hc as [Hlt _].
  apply Nat.ltb_lt in Hlt.
  destruct (scan_scope tks want (e - S b) (S b) (enter want no_depth))
    eqn:Hs; simpl; [|auto].
  apply scan_scope_bound in Hs. lia.
Qed.

Lemma find_scope_range tks b e :
  scope_begin (find_scope tks b e) = b /\
  scope_end (find_scope tks b e) <= e /\
  (scope_end (find_scope tks b e) = e \/
   b + 2 <= scope_end (find_scope tks b e)).
Proof. exact (find_scope_of_range tks paren open_scope b e). Qed.

Lemma next_it n b e :
  it_ (next n (cursor b e)) = Nat.min e (b + n).
Proof.
  unfold next, cursor; simpl.
  destruct (e <=? b + n) eqn:H;
    [apply Nat.leb_le in H | apply Nat.leb_gt in H]; lia.
Qed.

(** A cursor at or past the end of its range reads as [eof]. *)
Lemma cursor_type_in_range tks b e :
  cursor_type tks (cursor b e) <> eof -> b < e.
Proof.
  unfold cursor_type, get, cursor; simpl.
  destruct (b <? e) eqn:H; [apply Nat.ltb_lt in H; auto|].
  simpl. congruence.
Qed.

Lemma type_is_in_range tks b e k :
  type_is tks (cursor b e) k = true -> k <> eof -> b < e.
Proof.
  unfold type_is. intros H Hk.
  apply internal_tk_enum_dec_bl in H.
  apply (cursor_type_in_range tks). congruence.
Qed.

Lemma is_unary_in_range tks b e :
  is_unary tks (cursor b e) = true -> b < e.
Proof.
  unfold is_unary, operation. intros H.
  apply (cursor_type_in_range tks). intros Heq. rewrite Heq in H.
  discriminate.
Qed.

Lemma next_cursor n b e : b + n <= e -> next n (cursor b e) = cursor (b + n) e.
Proof.
  intros H. unfold next, cursor; simpl.
  destruct (e <=? b + n) eqn:Hc; [apply Nat.leb_le in Hc|]; f_equal; lia.
Qed.

Lemma cursor_type_at tks q e :
  q < e -> cursor_type tks (cursor q e) = kind_at tks q.
Proof.
  intros H. unfold cursor_type, get, cursor, kind_at; simpl.
  replace (q <? e) with true by (symmetry; apply Nat.ltb_lt; lia).
  reflexivity.
Qed.

(** ** The expression builder returns *)

Ltac bool_hyps :=
  repeat match goal with
  | H : (_ =? _) = true |- _ => apply Nat.eqb_eq in H
  | H : (_ =? _) = false |- _ => apply Nat.eqb_neq in H
  | H : (_ <? _) = true |- _ => apply Nat.ltb_lt in H
  | H : (_ <? _) = false |- _ => apply Nat.ltb_ge in H
  | H : (_ || _) = false |- _ => apply orb_false_iff in H; destruct H
  | H : type_is ?t (cursor ?b ?e) open_scope = true |- _ =>
      apply type_is_in_range in H; [|discriminate]
  | H : is_unary ?t (cursor ?b ?e) = true |- _ =>
      apply is_unary_in_range in H
  end.

Ltac scope_fact t x e :=
  lazymatch goal with
  | _ : scope_begin (find_scope t x e) = x /\ _ |- _ => fail
  | _ => pose proof (find_scope_range t x e)
  end.

Ltac scope_facts :=
  repeat match goal with
  | |- context [find_scope ?t ?x ?e] => scope_fact t x e
  | _ : context [find_scope ?t ?x ?e] |- _ => scope_fact t x e
  end.

(** Case split on the innermost condition of the goal. *)
Ltac split_if :=
  match goal with
  | |- context [if ?c then _ else _] =>
    lazymatch c with
    | context [if _ then _ else _] => fail
    | _ => destruct c eqn:?
    end
  end.

(** Case split on the outcome of a recursive call. *)
Ltac split_call build :=
  match goal with
  | |- context [bind (build ?x ?y ?z) _] =>
    destruct (build x y z) as [[?|]| |] eqn:?
  end.

Ltac walk build :=
  repeat (first [split_if | split_call build]; cbn [bind value fst snd]).

Ltac range_arith :=
  unfold contained_begin, contained_end in *; scope_facts; bool_hyps; lia.





(** ** The shape of the trees *)

Ltac use_true :=
  repeat match goal with
  | H : ?x = true |- context [?x] => rewrite H
  end.

Ltac shape_now :=
  unfold shaped, push_back, push_front, front, Node_of, Node_span,
    to_statement, make_function_call, is_unary, operation in *;
  simpl in *; use_true; simpl; try reflexivity.

Ltac by_IH IH :=
  repeat match goal with
  | E : ?f _ _ _ = Ok (Some _) |- _ =>
    apply IH in E;
    [| solve [exact I | eexists; split; [reflexivity|]; shape_now]]
  end.

Lemma build_step_shaped tks build b e lp :
  (forall b' e' lp' n, pass_ok lp' -> build b' e' lp' = Ok (Some n) ->
     shaped n = true) ->
  pass_ok lp ->
  forall n, build_step tks build b e lp = Ok (Some n) -> shaped n = true.
Proof.
  intros IH Hlp n. unfold build_step. cbv zeta.
  destruct lp as [[k sp cs]|].
  - destruct Hlp as [c [Hb Hc]]. simpl in Hb. subst cs.
    walk build; try discriminate; intros Hr; by_IH IH; try assumption;
      injection Hr as <-; shape_now.
  - walk build; try discriminate; intros Hr; by_IH IH; try assumption;
      injection Hr as <-; shape_now.
Qed.

Lemma build_statement_fuel_shaped tks fuel : forall b e lp n,
  pass_ok lp ->
  build_statement_fuel tks fuel b e lp = Ok (Some n) -> shaped n = true.
Proof.
  induction fuel as [|fuel IH]; intros b e lp n Hlp H; simpl in H;
    [discriminate|].
  eapply build_step_shaped; eauto.
Qed.

(** ** Kinds of tokens *)

Lemma is_atom_cases k :
  is_atom k = true -> k = number_literal \/ k = alnumus.
Proof. destruct k; simpl; intros H; try discriminate; auto. Qed.

(** ** One pass over a flat expression *)

Lemma is_unary_at tks x e :
  x < e -> is_unary tks (cursor x e) = unary_at tks x.
Proof.
  intros H. unfold is_unary, operation, unary_at.
  rewrite cursor_type_at by exact H. reflexivity.
Qed.

Lemma type_is_at tks x e k :
  x < e -> type_is tks (cursor x e) k = tk_enum_beq (kind_at tks x) k.
Proof.
  intros H. unfold type_is. rewrite cursor_type_at by exact H. reflexivity.
Qed.

Lemma cursor_type_end tks x e : e <= x -> cursor_type tks (cursor x e) = eof.
Proof.
  intros H. unfold cursor_type, get, cursor; simpl.
  replace (x <? e) with false by (symmetry; apply Nat.ltb_ge; lia).
  reflexivity.
Qed.

Lemma type_is_end tks x e k :
  e <= x -> type_is tks (cursor x e) k = tk_enum_beq eof k.
Proof.
  intros H. unfold type_is. rewrite cursor_type_end by exact H. reflexivity.
Qed.

Lemma importance_cursor tks x e :
  x < e -> importance tks (cursor x e) = importance_at tks x.
Proof.
  intros H. unfold importance, importance_at.
  rewrite cursor_type_at by exact H. reflexivity.
Qed.

Lemma is_right_at tks x e :
  x < e -> is_right tks (cursor x e) = right_at tks x.
Proof.
  intros H. unfold is_right, associativity, right_at.
  rewrite cursor_type_at by exact H. reflexivity.
Qed.

Lemma to_statement_at tks x e :
  x < e -> to_statement tks (cursor x e) = leaf_at tks x.
Proof.
  intros H. unfold to_statement, leaf_at.
  rewrite cursor_type_at by exact H. reflexivity.
Qed.

(** Bring every cursor of the goal to the position it stands at. *)
Ltac at_cursor :=
  repeat match goal with
  | |- context [it_ (next ?n (cursor ?q ?e))] => rewrite (next_it n q e)
  | |- context [Nat.min ?e ?p] =>
      first [ replace (Nat.min e p) with p by lia
            | replace (Nat.min e p) with e by lia ]
  | |- context [next ?n (cursor ?q ?e)] =>
      rewrite (next_cursor n q e) by lia
  | |- context [is_unary ?t (cursor ?x ?e)] =>
      rewrite (is_unary_at t x e) by lia
  | |- context [type_is ?t (cursor ?x ?e) ?k] =>
      first [ rewrite (type_is_at t x e k) by lia
            | rewrite (type_is_end t x e k) by lia ]
  | |- context [importance ?t (cursor ?x ?e)] =>
      rewrite (importance_cursor t x e) by lia
  | |- context [is_right ?t (cursor ?x ?e)] =>
      rewrite (is_right_at t x e) by lia
  | |- context [to_statement ?t (cursor ?x ?e)] =>
      rewrite (to_statement_at t x e) by lia
  | |- context [it_ (cursor ?x ?e)] =>
      change (it_ (cursor x e)) with x
  | |- context [Nat.eqb ?a ?b] =>
      first [ replace (Nat.eqb a b) with true
                by (symmetry; apply Nat.eqb_eq; lia)
            | replace (Nat.eqb a b) with false
                by (symmetry; apply Nat.eqb_neq; lia) ]
  end.

Lemma atom_kind tks p :
  atom_at tks p = true ->
  unary_at tks p = false /\
  tk_enum_beq (kind_at tks p) open_scope = false /\
  tk_enum_beq (kind_at tks p) eof = false /\
  negb (tk_enum_beq (kind_at tks p) number_literal)
    && negb (tk_enum_beq (kind_at tks p) alnumus) = false.
Proof.
  unfold atom_at, unary_at. intros H. apply is_atom_cases in H.
  destruct H as [-> | ->]; repeat split; reflexivity.
Qed.

Lemma binary_kind tks p :
  binary_at tks p = true ->
  unary_at tks p = false /\
  tk_enum_beq (kind_at tks p) open_scope = false /\
  tk_enum_beq (kind_at tks p) eof = false.
Proof.
  unfold binary_at, unary_at.
  destruct (kind_at tks p); simpl; intros H; try discriminate;
    repeat split; reflexivity.
Qed.

Lemma unary_kind tks p :
  unary_at tks p = true ->
  tk_enum_beq (kind_at tks p) open_scope = false /\
  tk_enum_beq (kind_at tks p) eof = false /\
  negb (tk_enum_beq (kind_at tks p) number_literal)
    && negb (tk_enum_beq (kind_at tks p) alnumus) = true.
Proof.
  unfold unary_at.
  destruct (kind_at tks p); simpl; intros H; try discriminate;
    repeat split; reflexivity.
Qed.

Ltac kind_facts :=
  repeat match goal with
  | H : atom_at ?t ?p = true |- _ =>
    let U := fresh "U" in let O := fresh "O" in
    let E := fresh "E" in let N := fresh "N" in
    destruct (atom_kind t p H) as (U & O & E & N); clear H
  | H : binary_at ?t ?p = true |- _ =>
    let U := fresh "U" in let O := fresh "O" in let E := fresh "E" in
    destruct (binary_kind t p H) as (U & O & E); clear H
  | H : unary_at ?t ?p = true |- _ =>
    let O := fresh "O" in let E := fresh "E" in let N := fresh "N" in
    destruct (unary_kind t p H) as (O & E & N); revert H
  end; intros.

Ltac use_facts :=
  repeat match goal with
  | H : ?x = true |- context [?x] => rewrite H
  | H : ?x = false |- context [?x] => rewrite H
  end.

Ltac flat_step :=
  unfold build_step; cbv zeta;
  repeat (progress (at_cursor; use_facts; simpl));
  try reflexivity.

Lemma step_atom_end tks build p e :
  atom_at tks p = true -> e = p + 1 ->
  build_step tks build p e None = Ok (Some (leaf_at tks p)).
Proof. intros Ha He. kind_facts. flat_step. Qed.

Lemma step_atom_op tks build p e :
  atom_at tks p = true -> p + 1 < e -> binary_at tks (p + 1) = true ->
  build_step tks build p e None =
  build (p + 1) e (Some (push_back (leaf_at tks (p + 1)) (leaf_at tks p))).
Proof. intros Ha He Hb. kind_facts. flat_step. Qed.

Lemma step_unary_end tks build p e :
  unary_at tks p = true -> e = p + 2 ->
  build_step tks build p e None =
  Ok (Some (push_back (leaf_at tks p) (leaf_at tks (p + 1)))).
Proof. intros Hu He. kind_facts. flat_step. Qed.

Lemma step_unary_op tks build p e :
  unary_at tks p = true -> p + 2 < e ->
  build_step tks build p e None =
  if importance_at tks p <? importance_at tks (p + 2) then
    r <- build (p + 2) e
           (Some (push_back (leaf_at tks (p + 2)) (leaf_at tks (p + 1)))) ;;
    n <- value r ;;
    Ok (Some (push_back (leaf_at tks p) n))
  else
    build (p + 2) e
      (Some (push_back (leaf_at tks (p + 2))
               (push_back (leaf_at tks p) (leaf_at tks (p + 1))))).
Proof. intros Hu He. kind_facts. flat_step. Qed.

Lemma follow_atom_end tks build q e lp :
  atom_at tks (q + 1) = true -> e = q + 2 ->
  build_step tks build q e (Some lp) =
  Ok (Some (attach tks q lp (leaf_at tks (q + 1)))).
Proof.
  intros Ha He. kind_facts. unfold attach. flat_step.
  destruct (right_at tks q); reflexivity.
Qed.

Lemma follow_atom_op tks build q e lp :
  atom_at tks (q + 1) = true -> q + 2 < e ->
  binary_at tks (q + 2) = true ->
  build_step tks build q e (Some lp) =
  if importance_at tks q <? importance_at tks (q + 2) then
    r <- build (q + 1) e None ;;
    n <- value r ;;
    Ok (Some (attach tks q lp n))
  else
    build (q + 2) e
      (Some (push_back (leaf_at tks (q + 2))
               (finished tks q lp (leaf_at tks (q + 1))))).
Proof.
  intros Ha He Hb. kind_facts. unfold attach, finished. flat_step.
  destruct (importance_at tks q <? importance_at tks (q + 2));
    destruct (right_at tks q); try reflexivity.
Qed.

Lemma follow_unary_end tks build q e lp :
  unary_at tks (q + 1) = true -> e = q + 3 ->
  build_step tks build q e (Some lp) =
  Ok (Some (attach tks q lp
              (push_back (leaf_at tks (q + 1)) (leaf_at tks (q + 2))))).
Proof.
  intros Hu He. kind_facts. unfold attach. flat_step.
  destruct (right_at tks q); reflexivity.
Qed.

Lemma follow_unary_op tks build q e lp :
  unary_at tks (q + 1) = true -> q + 3 < e ->
  binary_at tks (q + 3) = true ->
  build_step tks build q e (Some lp) =
  if importance_at tks q <? importance_at tks (q + 3) then
    r <- build (q + 1) e None ;;
    n <- value r ;;
    Ok (Some (attach tks q lp n))
  else
    build (q + 3) e
      (Some (push_back (leaf_at tks (q + 3))
               (finished tks q lp
                  (push_back (leaf_at tks (q + 1))
                     (leaf_at tks (q + 2)))))).
Proof.
  intros Hu He Hb. kind_facts. unfold attach, finished. flat_step.
  destruct (importance_at tks q <? importance_at tks (q + 3));
    destruct (right_at tks q); try reflexivity.
Qed.

(** ** Precedence and associativity *)

(** C2. On [a = b = c] the builder returns [=(c, =(b, a))]: each pass of
    a right-associative operator pushes its operand to the front, so the
    chain comes out with its operands in reverse and nests on the
    right-hand side of the last operator.  The additive chain [a + b - c]
    comes out left-nested, [-(+(a, b), c)]. *)
Theorem assignment_chain_is_reversed :
  parse assignment_chain =
    Some (Op (of_tk simple_assignment)
            [Atom (of_tk alnumus) "c";
             Op (of_tk simple_assignment)
               [Atom (of_tk alnumus) "b"; Atom (of_tk alnumus) "a"]]) /\
  parse additive_chain =
    Some (Op (of_tk subtraction)
            [Op (of_tk addition)
               [Atom (of_tk alnumus) "a"; Atom (of_tk alnumus) "b"];
             Atom (of_tk alnumus) "c"]).
Proof. split; reflexivity. Qed.

(** ** Arity *)

Lemma arity_leaf tks p : atom_at tks p = true -> arity_ok (leaf_at tks p) = true.
Proof.
  unfold atom_at, leaf_at. intros H. apply is_atom_cases in H.
  destruct H as [H|H]; rewrite H; reflexivity.
Qed.

Lemma arity_unary tks p x :
  unary_at tks p = true -> arity_ok x = true ->
  arity_ok (push_back (leaf_at tks p) x) = true.
Proof.
  unfold unary_at, leaf_at, arity_ok. intros Hu Hx. simpl.
  rewrite Hx. unfold kind_arity, is_binary_kind, is_unary_kind.
  destruct (kind_at tks p); simpl in Hu; try discriminate; reflexivity.
Qed.

Lemma arity_two k sp x y :
  is_binary_kind k = true -> arity_ok x = true -> arity_ok y = true ->
  arity_ok (mkNode k sp [x; y]) = true.
Proof.
  unfold arity_ok. intros Hk Hx Hy. simpl. rewrite Hx, Hy.
  unfold kind_arity. rewrite Hk. reflexivity.
Qed.

Lemma arity_attach tks q lp x :
  pass_good lp -> arity_ok x = true -> arity_ok (attach tks q lp x) = true.
Proof.
  intros [Hk [c [Hb Hc]]] Hx. destruct lp as [k sp cs]. simpl in *.
  subst cs. unfold attach, push_front, push_back. simpl.
  destruct (right_at tks q); apply arity_two; assumption.
Qed.

Lemma arity_finished tks q lp x :
  pass_good lp -> arity_ok x = true ->
  arity_ok (finished tks q lp x) = true.
Proof.
  intros [Hk [c [Hb Hc]]] Hx. destruct lp as [k sp cs]. simpl in *.
  subst cs. unfold finished, push_back, front, Node_of. simpl.
  destruct (right_at tks q); apply arity_two; assumption.
Qed.

Lemma pass_good_push tks q x :
  binary_at tks q = true -> arity_ok x = true ->
  pass_good (push_back (leaf_at tks q) x).
Proof.
  intros Hb Hx. split; [exact Hb|]. exists x. split; [reflexivity|exact Hx].
Qed.

(** *** Flat expressions parse *)

Lemma operand_alone_builds tks e p :
  operand tks e p e -> builds_from tks e p.
Proof.
  intros [(Hlt & Ha & He)|(Hlt & Hu & Ha & He)] fuel Hf;
    (destruct fuel as [|fuel]; [lia|]); cbn [build_statement_fuel].
  - rewrite step_atom_end by assumption.
    eexists. split; [reflexivity|]. apply arity_leaf. exact Ha.
  - rewrite step_unary_end by assumption.
    eexists. split; [reflexivity|].
    apply arity_unary; [exact Hu|]. apply arity_leaf. exact Ha.
Qed.

Lemma operand_then_chain_builds tks e p q :
  operand tks e p q -> q < e -> binary_at tks q = true ->
  builds_at tks e q -> builds_from tks e p.
Proof.
  intros [(Hlt & Ha & Hq)|(Hlt & Hu & Ha & Hq)] Hqe Hb Hq' fuel Hf;
    subst q; (destruct fuel as [|fuel]; [lia|]);
    cbn [build_statement_fuel].
  - rewrite step_atom_op by assumption.
    apply Hq'; [lia|]. apply pass_good_push; [exact Hb|].
    apply arity_leaf. exact Ha.
  - rewrite step_unary_op by assumption.
    destruct (importance_at tks p <? importance_at tks (p + 2)).
    + destruct (Hq' fuel
                  (push_back (leaf_at tks (p + 2)) (leaf_at tks (p + 1))))
        as (n & Hn & Hok); [lia| |].
      * apply pass_good_push; [exact Hb|]. apply arity_leaf. exact Ha.
      * rewrite Hn. cbn [bind value]. eexists. split; [reflexivity|].
        apply arity_unary; assumption.
    + apply Hq'; [lia|]. apply pass_good_push; [exact Hb|].
      apply arity_unary; [exact Hu|]. apply arity_leaf. exact Ha.
Qed.

Lemma chain_head tks e q : chain tks e q -> q < e /\ binary_at tks q = true.
Proof. intros [? ? ? ?|? ? ? ? ? ?]; auto. Qed.

Lemma chain_builds tks e q : chain tks e q -> builds_at tks e q.
Proof.
  induction 1 as [q Hlt Hb Hop|q q' Hlt Hb Hop Hch IH];
    intros fuel lp Hf Hlp; (destruct fuel as [|fuel]; [lia|]);
    cbn [build_statement_fuel].
  - destruct Hop as [(Hl & Ha & He)|(Hl & Hu & Ha & He)].
    + rewrite follow_atom_end by (try assumption; lia).
      eexists. split; [reflexivity|].
      apply arity_attach; [exact Hlp|]. apply arity_leaf. exact Ha.
    + rewrite follow_unary_end by (try assumption; lia).
      eexists. split; [reflexivity|].
      apply arity_attach; [exact Hlp|].
      apply arity_unary; [exact Hu|].
      replace (q + 2) with (q + 1 + 1) by lia. apply arity_leaf. exact Ha.
  - destruct (chain_head tks e q' Hch) as [Hq'e Hq'b].
    assert (Hfresh : builds_from tks e (q + 1)).
    { eapply operand_then_chain_builds; eauto. }
    destruct Hop as [(Hl & Ha & He)|(Hl & Hu & Ha & He)]; subst q'.
    + replace (q + 1 + 1) with (q + 2) in * by lia.
      rewrite follow_atom_op by assumption.
      destruct (importance_at tks q <? importance_at tks (q + 2)).
      * destruct (Hfresh fuel) as (n & Hn & Hok); [lia|].
        rewrite Hn. cbn [bind value]. eexists. split; [reflexivity|].
        apply arity_attach; assumption.
      * apply IH; [lia|]. apply pass_good_push; [exact Hq'b|].
        apply arity_finished; [exact Hlp|]. apply arity_leaf. exact Ha.
    + replace (q + 1 + 2) with (q + 3) in * by lia.
      replace (q + 1 + 1) with (q + 2) in * by lia.
      rewrite follow_unary_op by assumption.
      destruct (importance_at tks q <? importance_at tks (q + 3)).
      * destruct (Hfresh fuel) as (n & Hn & Hok); [lia|].
        rewrite Hn. cbn [bind value]. eexists. split; [reflexivity|].
        apply arity_attach; assumption.
      * apply IH; [lia|]. apply pass_good_push; [exact Hq'b|].
        apply arity_finished; [exact Hlp|].
        apply arity_unary; [exact Hu|]. apply arity_leaf. exact Ha.
Qed.

(** A flat expression parses, and its tree has the arities of its
    operators. *)
Lemma flat_builds tks b e :
  flat tks b e ->
  exists n, build_statement tks b e None = Ok (Some n) /\ arity_ok n = true.
Proof.
  intros [Hop|(q & Hop & Hch)]; unfold build_statement.
  - apply (operand_alone_builds tks e b Hop). lia.
  - destruct (chain_head tks e q Hch) as [Hqe Hqb].
    apply (operand_then_chain_builds tks e b q Hop Hqe Hqb
             (chain_builds tks e q Hch)).
    lia.
Qed.

Lemma sum_of_product_flat : flat sum_of_product 0 5.
Proof.
  right. exists 1. split.
  - left. repeat split; solve [reflexivity | lia].
  - apply chain_more with (q' := 3); [lia|reflexivity| |].
    + left. repeat split; solve [reflexivity | lia].
    + apply chain_last; [lia|reflexivity|].
      left. repeat split; solve [reflexivity | lia].
Qed.

(** C3, as stated, fails: the lone token [*] is returned as a
    binary-operator node without children. *)
Lemma operator_leaf_counterexample :
  exists n, build_statement lone_operator 0 1 None = Ok (Some n) /\
            type n = of_tk multiplication /\
            is_binary_kind (type n) = true /\
            body n = [] /\
            arity_ok n = false.
Proof. eexists. repeat split; reflexivity. Qed.

(** C3, amended.  In every tree the builder returns, a node has no, one
    or two children, and a node with exactly one child is a
    unary-operator node: a token read in operator position gets two
    children, a unary prefix one, and a token read in operand position
    is a leaf whatever its kind.  On a flat expression, operands that are
    numbers or identifiers, each with or without a unary prefix, separated
    by binary operators, the builder returns a tree in which every
    binary-operator node has exactly two children and every
    unary-operator node exactly one. *)
Theorem build_statement_arity tks b e :
  (forall n, build_statement tks b e None = Ok (Some n) ->
             all_nodes positional_arity n = true) /\
  (flat tks b e ->
   exists n, build_statement tks b e None = Ok (Some n) /\
             all_nodes kind_arity n = true).
Proof.
  split.
  - unfold build_statement. intros n H.
    exact (build_statement_fuel_shaped tks _ b e None n I H).
  - apply flat_builds.
Qed.

Lemma build_statement_arity_witness :
  flat sum_of_product 0 5 /\
  exists n, build_statement sum_of_product 0 5 None = Ok (Some n) /\
            all_nodes kind_arity n = true /\
            all_nodes positional_arity n = true.
Proof.
  split; [exact sum_of_product_flat|].
  destruct (proj2 (build_statement_arity sum_of_product 0 5)
              sum_of_product_flat) as (n & Hn & Hok).
  exists n. repeat split; [exact Hn|exact Hok|].
  exact (proj1 (build_statement_arity sum_of_product 0 5) n Hn).
Defined.

(** C4. On [foo.bar()] the builder returns [.(foo, call(bar, args))],
    and on [a.b().c] it returns [.(.(a, call(b, args)), c)]: the call
    takes the operand next to the parenthesis as its callee, not the
    member expression to its left. *)
Theorem call_binds_to_nearest_operand :
  parse member_call =
    Some (Op (of_tk period)
            [Atom (of_tk alnumus) "foo";
             Op function_call_
               [Atom (of_tk alnumus) "bar"; Atom arguments_ ""]]) /\
  parse member_call_member =
    Some (Op (of_tk period)
            [Op (of_tk period)
               [Atom (of_tk alnumus) "a";
                Op function_call_
                  [Atom (of_tk alnumus) "b"; Atom arguments_ ""]];
             Atom (of_tk alnumus) "c"]).
Proof. split; reflexivity. Qed.

(** ** Malformed expressions *)








(** Evaluate a closed call and take its result as the witness. *)
Ltac run :=
  match goal with
  | |- exists r, ?f = Ok r /\ _ =>
    let v := eval vm_compute in f in
    match v with
    | Ok ?x => exists x; split; [vm_compute; reflexivity|]
    end
  end.

(** ** The variable directive *)

(** C7, as stated, fails: the second child of the node is not the tree of
    the initialiser. *)
Lemma var_initialiser_counterexample :
  exists r, ParseDirectiveVar var_statement 0 14 = Ok r /\
    map (ast_of var_statement) (body (res_node r)) <>
      [Atom (of_tk alnumus) "foo"; initialiser_tree].
Proof. run. vm_compute. discriminate. Qed.

(** C7, amended.  Parsing [#var foo = 1 + c * (3 / 4);] succeeds and
    yields an [anon_variable_definition_assingment_] node with exactly two
    children: the [alnumus] leaf [foo], and the tree of the whole
    assignment expression [foo = 1 + c * (3 / 4)], a [simple_assignment]
    node with two children, the tree of the initialiser and the leaf
    [foo]. *)
Theorem var_statement_parses :
  exists r, ParseDirectiveVar var_statement 0 14 = Ok r /\
  exists name_leaf assignment,
    res_valid r = true /\
    res_it r = 13 /\
    type (res_node r) = anon_variable_definition_assingment_ /\
    body (res_node r) = [name_leaf; assignment] /\
    ast_of var_statement name_leaf = Atom (of_tk alnumus) "foo" /\
    type assignment = of_tk simple_assignment /\
    List.length (body assignment) = 2 /\
    In initialiser_tree (map (ast_of var_statement) (body assignment)) /\
    In (Atom (of_tk alnumus) "foo")
       (map (ast_of var_statement) (body assignment)).
Proof.
  run.
  match eval vm_compute in (ParseDirectiveVar var_statement 0 14) with
  | Ok ?x =>
    match eval vm_compute in (body (res_node x)) with
    | [?a; ?c] => exists a, c
    end
  end.
  repeat split; try (vm_compute; reflexivity).
  - vm_compute. left. reflexivity.
  - vm_compute. right. left. reflexivity.
Qed.

(** ** Range constraints of the integer sigils *)

Lemma find_forward_kinds tks ks : forall b,
  find_forward tks b ks = true ->
  forall i k, nth_error ks i = Some k -> kind_at tks (b + i) = k.
Proof.
  induction ks as [|k0 ks IH]; intros b H i k Hi.
  - destruct i; discriminate.
  - simpl in H. apply andb_true_iff in H. destruct H as [H Hrest].
    apply andb_true_iff in H. destruct H as [_ Hk].
    apply internal_tk_enum_dec_bl in Hk.
    destruct i as [|i]; simpl in Hi.
    + injection Hi as <-. rewrite Nat.add_0_r. exact Hk.
    + rewrite Nat.add_succ_r. apply (IH (S b) Hrest i k Hi).
Qed.

Lemma cursor_type_next tks n b e :
  b + n < e ->
  cursor_type tks (next n (cursor b e)) = kind_at tks (b + n).
Proof.
  intros H. rewrite next_cursor by lia.
  unfold cursor_type, get, cursor, kind_at; simpl.
  destruct (b + n <? e) eqn:Hc; [reflexivity|].
  apply Nat.ltb_ge in Hc. lia.
Qed.

Lemma to_statement_next tks n b e :
  b + n < e ->
  to_statement tks (next n (cursor b e)) =
  Node_span (of_tk (kind_at tks (b + n))) (b + n) (S (b + n)).
Proof.
  intros H. unfold to_statement. rewrite cursor_type_next by exact H.
  rewrite next_it. replace (Nat.min e (b + n)) with (b + n) by lia.
  reflexivity.
Qed.

Lemma type_is_next tks n b e k :
  b + n < e ->
  type_is tks (next n (cursor b e)) k = tk_enum_beq (kind_at tks (b + n)) k.
Proof.
  intros H. unfold type_is. rewrite cursor_type_next by exact H.
  reflexivity.
Qed.

Lemma find_forward_cons tks b k ks :
  find_forward tks b (k :: ks) = true ->
  kind_at tks b = k /\ find_forward tks (S b) ks = true.
Proof.
  simpl. intros H. apply andb_true_iff in H. destruct H as [H Hrest].
  apply andb_true_iff in H. destruct H as [_ Hk].
  apply internal_tk_enum_dec_bl in Hk. auto.
Qed.

(** Read the kinds off a [find_forward] hypothesis. *)
Ltac read_kinds H :=
  repeat (apply find_forward_cons in H;
          let K := fresh "K" in destruct H as [K H]);
  clear H.

Ltac s_form := rewrite ?Nat.add_succ_r, ?Nat.add_0_r.

Ltac in_range e :=
  repeat match goal with
  | |- context [?p <? e] =>
      replace (p <? e) with true by (symmetry; apply Nat.ltb_lt; lia)
  end.

Ltac known_kinds :=
  repeat match goal with
  | K : kind_at ?t ?p = _ |- context [kind_at ?t ?p] => rewrite K
  end.

Ltac cursor_steps :=
  repeat match goal with
  | |- context [to_statement ?t (next ?n (cursor ?b ?e))] =>
      rewrite (to_statement_next t n b e) by lia
  | |- context [type_is ?t (next ?n (cursor ?b ?e)) ?k] =>
      rewrite (type_is_next t n b e k) by lia
  | |- context [it_ (next ?n (cursor ?b ?e))] => rewrite (next_it n b e)
  end;
  repeat match goal with
  | |- context [Nat.min ?e ?p] => replace (Nat.min e p) with p by lia
  end.

Ltac sigil e :=
  cbv zeta;
  unfold scan_tokens_pack, constrained_int_type_mask,
    constrained_uint_type_mask, kind, stmt;
  repeat (progress (cursor_steps; s_form; in_range e; known_kinds; simpl)).

(** C9, as stated, fails: on [&uint[-1...5]] the routine returns the bare
    [auint_] node, no bounds, and stops behind the sigil, while on
    [&int[-1...5]] the node holds the two bounds and the cursor is behind
    the closing bracket. *)
Lemma uint_negated_bound_counterexample :
  body (res_node (ParseCsoUint uint_negated 0 7)) = [] /\
  res_it (ParseCsoUint uint_negated 0 7) = 1 /\
  map (ast_of int_negated) (body (res_node (ParseCsoInt int_negated 0 7))) =
    [Op (of_tk subtraction) [Atom (of_tk number_literal) "1"];
     Atom (of_tk number_literal) "5"] /\
  res_it (ParseCsoInt int_negated 0 7) = 7.
Proof. repeat split; vm_compute; reflexivity. Qed.

(** C9, amended.  For [&int] a range constraint whose bounds may each
    carry a unary minus is parsed into an [aint_] node with the two bounds
    as children, a negated bound being the minus over its number.  For
    [&uint] only the constraint with two plain numbers is parsed into an
    [auint_] node with two children; with a minus on either bound the
    routine returns the bare [auint_] node and leaves the bracket
    unread. *)
Theorem range_constraint_of_sigils tks b e :
  (find_forward tks b
     [aint_; open_frame; number_literal; ellipsis; number_literal;
      close_frame] = true ->
   b + 6 <= e ->
   ParseCsoInt tks b e =
   make_success "ParseCsoInt"
     (sigil_node aint_ [bound (b + 2); bound (b + 4)]) (b + 6)) /\
  (find_forward tks b
     [aint_; open_frame; subtraction; number_literal; ellipsis;
      number_literal; close_frame] = true ->
   b + 7 <= e ->
   ParseCsoInt tks b e =
   make_success "ParseCsoInt"
     (sigil_node aint_ [negated_bound (b + 2); bound (b + 5)]) (b + 7)) /\
  (find_forward tks b
     [aint_; open_frame; number_literal; ellipsis; subtraction;
      number_literal; close_frame] = true ->
   b + 7 <= e ->
   ParseCsoInt tks b e =
   make_success "ParseCsoInt"
     (sigil_node aint_ [bound (b + 2); negated_bound (b + 4)]) (b + 7)) /\
  (find_forward tks b
     [aint_; open_frame; subtraction; number_literal; ellipsis;
      subtraction; number_literal; close_frame] = true ->
   b + 8 <= e ->
   ParseCsoInt tks b e =
   make_success "ParseCsoInt"
     (sigil_node aint_ [negated_bound (b + 2); negated_bound (b + 5)])
     (b + 8)) /\
  (find_forward tks b
     [auint_; open_frame; number_literal; ellipsis; number_literal;
      close_frame] = true ->
   b + 6 <= e ->
   ParseCsoUint tks b e =
   make_success "ParseCsoUint"
     (sigil_node auint_ [bound (b + 2); bound (b + 4)]) (b + 6)) /\
  (find_forward tks b [auint_; open_frame; subtraction] = true ->
   b + 3 <= e ->
   ParseCsoUint tks b e =
   make_success "ParseCsoUint" (sigil_node auint_ []) (b + 1)) /\
  (find_forward tks b
     [auint_; open_frame; number_literal; ellipsis; subtraction] = true ->
   b + 5 <= e ->
   ParseCsoUint tks b e =
   make_success "ParseCsoUint" (sigil_node auint_ []) (b + 1)).
Proof.
  repeat split; intros H He; unfold ParseCsoInt, ParseCsoUint;
    read_kinds H; sigil e; reflexivity.
Qed.

Lemma range_constraint_of_sigils_witness :
  ParseCsoInt int_negated 0 7 =
    make_success "ParseCsoInt"
      (sigil_node aint_ [negated_bound 2; bound 5]) 7 /\
  ParseCsoUint uint_negated 0 7 =
    make_success "ParseCsoUint" (sigil_node auint_ []) 1.
Proof.
  destruct (range_constraint_of_sigils int_negated 0 7)
    as (_ & Hint & _).
  destruct (range_constraint_of_sigils uint_negated 0 7)
    as (_ & _ & _ & _ & _ & Huint & _).
  split; [apply Hint | apply Huint]; solve [reflexivity | lia].
Defined.

(** ** Statements of a functional block *)

Lemma tk_enum_beq_false (a b : tk_enum) : a <> b -> tk_enum_beq a b = false.
Proof.
  intros H. destruct (tk_enum_beq a b) eqn:E; [|reflexivity].
  apply internal_tk_enum_dec_bl in E. contradiction.
Qed.

(** A leading token that is no identifier, [return] or [var] ends the
    block with an error at that token. *)
Lemma functional_block_rejects tks b e :
  ~ In (kind_at tks b) [eof; alnumus; return_; var_] ->
  b < e ->
  ParseFunctionalBlock tks b e =
  Ok (make_error "ParseFunctionalBlock" b (nth b tks sentinel_end_token)
        "ParsePragmaticBlock: Invalid statement.").
Proof.
  intros Hk Hlt. unfold ParseFunctionalBlock.
  cbn [ParseFunctionalBlock_loop]. unfold is_kind, kind, at_.
  apply Nat.ltb_lt in Hlt. rewrite Hlt.
  rewrite !tk_enum_beq_false; [reflexivity| | | |];
    intros Heq; apply Hk; rewrite Heq; simpl; auto.
Qed.

Lemma find_statement_simple tks open k p e :
  kind_at tks p = open ->
  kind_at tks (S p) = k ->
  kind_at tks (S (S p)) = eos ->
  is_atom k = true ->
  open = var_ \/ open = return_ ->
  p + 3 <= e ->
  find_statement tks open eos p e = mkScope true p (p + 3).
Proof.
  intros Ko Kk Ke Hk Hopen He.
  unfold find_statement, find_statement_of.
  replace (p <? e) with true by (symmetry; apply Nat.ltb_lt; lia).
  rewrite Ko, (internal_tk_enum_dec_lb open open eq_refl). simpl andb.
  cbv iota.
  destruct (e - S p) as [|[|m]] eqn:Hm; try lia.
  cbn [scan_statement]. rewrite Kk, Ke.
  apply is_atom_cases in Hk. s_form.
  destruct Hk as [-> | ->]; destruct Hopen as [-> | ->]; reflexivity.
Qed.

(** ** The file loader *)

(** C10. For a readable file the loader returns its bytes with the NUL
    convention: nothing for an empty file, and otherwise a vector that
    ends in NUL, the NUL being appended exactly when the file does not
    end in one. *)
Theorem loaded_buffer_ends_in_NUL fs name content :
  fs name = readable content ->
  exists chars,
    load_file_to_char8_vector fs name = Ok chars /\
    ((content = [] /\ chars = []) \/
     (content <> [] /\
      (exists front, chars = front ++ [NUL])%list /\
      (back content = NUL -> chars = content) /\
      (back content <> NUL -> chars = content ++ [NUL])%list)).
Proof.
  intros Hf. unfold load_file_to_char8_vector. rewrite Hf.
  destruct content as [|c content].
  - exists []. split; [reflexivity|]. left. auto.
  - cbn [List.length Nat.eqb].
    destruct (Byte.eqb (back (c :: content)) NUL) eqn:Hb; cbn [negb].
    + apply Byte.byte_dec_bl in Hb.
      exists (c :: content). split; [reflexivity|]. right.
      split; [discriminate|]. split; [|split].
      * exists (removelast (c :: content)). unfold back in Hb.
        pose proof (@app_removelast_last _ (c :: content) NUL) as Hl.
        rewrite Hb in Hl. apply Hl. discriminate.
      * reflexivity.
      * intros Hn. contradiction.
    + apply Byte.eqb_false in Hb.
      exists ((c :: content) ++ [NUL])%list. split; [reflexivity|]. right.
      split; [discriminate|]. split; [|split].
      * exists (c :: content). reflexivity.
      * intros Hn. contradiction.
      * reflexivity.
Qed.

Lemma loaded_buffer_ends_in_NUL_witness :
  two_files "ab.candi" = readable [x61; x62] /\
  exists chars,
    load_file_to_char8_vector two_files "ab.candi" = Ok chars /\
    (([x61; x62] = [] /\ chars = []) \/
     ([x61; x62] <> [] /\
      (exists front, chars = front ++ [NUL])%list /\
      (back [x61; x62] = NUL -> chars = [x61; x62]) /\
      (back [x61; x62] <> NUL -> chars = [x61; x62] ++ [NUL])%list)).
Proof.
  split; [reflexivity|].
  apply (loaded_buffer_ends_in_NUL two_files "ab.candi" [x61; x62]).
  reflexivity.
Defined.

(** * Further properties of the expression builder *)

(** ** What the builder returns *)

Ltac settle IH :=
  first
  [ solve [left; eexists; reflexivity]
  | solve [right; eexists; reflexivity]
  | solve [apply IH; range_arith]
  | match goal with
    | E : ?build ?x ?y ?z = _ |- _ =>
      destruct (IH x y z) as [[? Hn]|[? Hn]];
      [ range_arith
      | rewrite Hn in E; discriminate
      | rewrite Hn in E;
        first [ discriminate
              | injection E as <-; right; eexists; reflexivity ] ]
    end ].

Lemma build_step_node_or_error tks build b e lp :
  (forall b' e' lp', e' - b' < e - b -> node_or_error (build b' e' lp')) ->
  node_or_error (build_step tks build b e lp).
Proof.
  intros IH. unfold build_step. cbv zeta. rewrite ?next_it. simpl it_.
  destruct lp; walk build; settle IH.
Qed.

Lemma build_statement_fuel_node_or_error tks fuel : forall b e lp,
  e - b < fuel -> node_or_error (build_statement_fuel tks fuel b e lp).
Proof.
  induction fuel as [|fuel IH]; intros b e lp Hf; [lia|].
  simpl. apply build_step_node_or_error. intros b' e' lp' Hm.
  apply IH. lia.
Qed.

(** X1. On every range that holds a token of the vector,
    [build_statement] called without a pass, as its callers call it,
    returns a node or throws a [std::runtime_error]: it ends, and the
    optional it returns is never empty, so no [value()] on its result
    raises [bad_optional_access], and the branch of
    [ParseValueExpression] for an empty optional is never taken. *)
Theorem build_statement_returns tks b e :
  b < e -> e <= List.length tks ->
  (exists n, build_statement tks b e None = Ok (Some n)) \/
  (exists msg, build_statement tks b e None = Throw (runtime_error msg)).
Proof.
  intros _ _. unfold build_statement.
  destruct (build_statement_fuel_node_or_error tks (S (e - b)) b e None)
    as [[n Hn]|[msg Hm]]; [lia| |].
  - left. exists n. exact Hn.
  - right. exists msg. exact Hm.
Qed.

Lemma build_statement_returns_witness :
  (exists n, build_statement sum_of_product 0 5 None = Ok (Some n)) \/
  (exists msg,
     build_statement sum_of_product 0 5 None = Throw (runtime_error msg)).
Proof.
  apply (build_statement_returns sum_of_product 0 5); simpl; lia.
Defined.

(** ** The equation of the builder *)

(** The result of a pass does not depend on how its calls on shorter
    ranges are computed. *)
Ltac same_call build1 build2 H :=
  match goal with
  | |- context [bind (build1 ?x ?y ?z) _] =>
    rewrite (H x y z) by range_arith;
    destruct (build2 x y z) as [[?|]| |] eqn:?; cbn [bind value fst snd]
  | |- build1 ?x ?y ?z = _ => apply H; range_arith
  end.

Lemma build_step_ext tks build1 build2 b e lp :
  (forall b' e' lp', e' - b' < e - b -> build1 b' e' lp' = build2 b' e' lp') ->
  build_step tks build1 b e lp = build_step tks build2 b e lp.
Proof.
  intros H. unfold build_step. cbv zeta. rewrite ?next_it. simpl it_.
  destruct lp;
    repeat (first [split_if | same_call build1 build2 H];
            cbn [bind value fst snd]);
    try reflexivity.
Qed.

Lemma build_statement_fuel_same tks : forall fuel1 fuel2 b e lp,
  e - b < fuel1 -> e - b < fuel2 ->
  build_statement_fuel tks fuel1 b e lp =
  build_statement_fuel tks fuel2 b e lp.
Proof.
  induction fuel1 as [|fuel1 IH]; intros fuel2 b e lp H1 H2; [lia|].
  destruct fuel2 as [|fuel2]; [lia|]. cbn [build_statement_fuel].
  apply build_step_ext. intros b' e' lp' Hm. apply IH; lia.
Qed.

(** With fuel beyond the length of the range the result is that of
    [build_statement]. *)
Lemma build_statement_fuel_enough tks fuel b e lp :
  e - b < fuel ->
  build_statement_fuel tks fuel b e lp = build_statement tks b e lp.
Proof.
  intros H. unfold build_statement. apply build_statement_fuel_same; lia.
Qed.

(** [build_statement] satisfies the equation of its body. *)
Lemma build_statement_unfold tks b e lp :
  build_statement tks b e lp =
  build_step tks (build_statement tks) b e lp.
Proof.
  unfold build_statement at 1. cbn [build_statement_fuel].
  apply build_step_ext. intros b' e' lp' Hm.
  apply build_statement_fuel_enough. lia.
Qed.

(** ** Parentheses around an expression *)

Lemma scope_is_transparent tks b e :
  kind_at tks b = open_scope ->
  find_scope tks b e = mkScope true b e ->
  b + 2 < e ->
  build_statement tks b e None = build_statement tks (S b) (pred e) None.
Proof.
  intros Hk Hs Hlt. rewrite build_statement_unfold.
  unfold build_step. cbv zeta.
  unfold is_unary, operation, type_is.
  rewrite cursor_type_at by lia. rewrite Hk.
  cbn [operation_of Operation_beq tk_enum_beq it_ cursor].
  rewrite Hs. unfold is_empty, contained_begin, contained_end.
  cbn [valid scope_begin scope_end negb].
  replace (S b =? Nat.pred e) with false
    by (symmetry; apply Nat.eqb_neq; lia).
  rewrite Nat.eqb_refl. reflexivity.
Qed.

(** X2. Parentheses around a whole expression do not change what the
    builder returns: when [n] pairs of parentheses enclose the range, each
    scope closing at the end of the range left to it, the result is that
    of the range without them, whether a tree or an exception. *)
Theorem wrapped_expression_is_unwrapped tks n : forall b e,
  wrapped tks b e n ->
  build_statement tks b e None = build_statement tks (b + n) (e - n) None.
Proof.
  induction n as [|n IH]; intros b e H.
  - rewrite Nat.add_0_r, Nat.sub_0_r. reflexivity.
  - destruct H as (Hk & Hs & Hlt & Hrest).
    rewrite scope_is_transparent by assumption.
    rewrite (IH (S b) (pred e) Hrest).
    f_equal; lia.
Qed.

Lemma wrapped_expression_is_unwrapped_witness :
  wrapped wrapped_sum 0 7 2 /\
  build_statement wrapped_sum 0 7 None = build_statement wrapped_sum 2 5 None.
Proof.
  assert (H : wrapped wrapped_sum 0 7 2).
  { simpl. repeat split; solve [reflexivity | lia]. }
  split; [exact H|].
  exact (wrapped_expression_is_unwrapped wrapped_sum 2 0 7 H).
Defined.

(** ** Chains of operators *)

Lemma level_chain_folds tks e : forall n q fuel lp c,
  level_chain tks q (S n) -> e = q + 2 * S n -> e - q < fuel ->
  type lp = of_tk (kind_at tks q) -> body lp = [c] ->
  exists node,
    build_statement_fuel tks fuel q e (Some lp) = Ok (Some node) /\
    ast_of tks node = folded tks (ast_of tks c) q (S n).
Proof.
  induction n as [|n IH]; intros q fuel lp c Hch He Hf Ht Hb;
    (destruct fuel as [|fuel]; [lia|]); cbn [build_statement_fuel];
    destruct Hch as (Hbin & Hatom & Himp & Hrest);
    destruct lp as [k sp cs]; cbn [type body] in Ht, Hb; subst k cs.
  - rewrite follow_atom_end by (try assumption; lia).
    eexists. split; [reflexivity|].
    unfold attach, push_front, push_back. cbn [folded].
    destruct (right_at tks q); reflexivity.
  - pose proof Hrest as (Hbin' & _).
    rewrite follow_atom_op by (try assumption; lia).
    replace (importance_at tks q <? importance_at tks (q + 2)) with false
      by (symmetry; apply Nat.ltb_ge; apply Himp; discriminate).
    destruct (IH (q + 2) fuel
                (push_back (leaf_at tks (q + 2))
                   (finished tks q (mkNode (of_tk (kind_at tks q)) sp [c])
                      (leaf_at tks (q + 1))))
                (finished tks q (mkNode (of_tk (kind_at tks q)) sp [c])
                   (leaf_at tks (q + 1))))
      as (node & Hn & Ha); try assumption; try lia; try reflexivity.
    exists node. split; [exact Hn|]. rewrite Ha.
    cbn [folded]. f_equal.
    unfold finished, push_back, front, Node_of. cbn [type body hd app].
    destruct (right_at tks q); reflexivity.
Qed.

(** X3. Operands (numbers or identifiers) separated by binary operators
    none of which is followed by a more important one are folded from the
    left: each operator takes the tree built so far and its operand, in
    this order when it associates to the left and swapped when it
    associates to the right.  So [a - b - c - d] is
    [-(-(-(a, b), c), d)], and [a = b = c = d] is
    [=(d, =(c, =(b, a)))]. *)
Theorem level_chain_folds_from_the_left tks b e n :
  atom_at tks b = true ->
  level_chain tks (b + 1) n ->
  e = b + 1 + 2 * n ->
  exists node,
    build_statement tks b e None = Ok (Some node) /\
    ast_of tks node = folded tks (ast_of tks (leaf_at tks b)) (b + 1) n.
Proof.
  intros Ha Hch He. destruct n as [|n].
  - unfold build_statement. cbn [build_statement_fuel].
    rewrite step_atom_end by (try assumption; lia).
    eexists. split; reflexivity.
  - unfold build_statement.
    destruct (e - b) as [|fuel] eqn:Hf; [lia|].
    cbn [build_statement_fuel].
    pose proof Hch as (Hbin & _).
    rewrite step_atom_op by (try assumption; lia).
    apply (level_chain_folds tks e n (b + 1) (S fuel)
             (push_back (leaf_at tks (b + 1)) (leaf_at tks b))
             (leaf_at tks b)); try assumption; try lia; reflexivity.
Qed.

Lemma level_chain_folds_from_the_left_witness :
  (exists node,
     build_statement subtraction_chain 0 7 None = Ok (Some node) /\
     ast_of subtraction_chain node =
       Op (of_tk subtraction)
         [Op (of_tk subtraction)
            [Op (of_tk subtraction)
               [Atom (of_tk alnumus) "a"; Atom (of_tk alnumus) "b"];
             Atom (of_tk alnumus) "c"];
          Atom (of_tk alnumus) "d"]) /\
  (exists node,
     build_statement long_assignment_chain 0 7 None = Ok (Some node) /\
     ast_of long_assignment_chain node =
       Op (of_tk simple_assignment)
         [Atom (of_tk alnumus) "d";
          Op (of_tk simple_assignment)
            [Atom (of_tk alnumus) "c";
             Op (of_tk simple_assignment)
               [Atom (of_tk alnumus) "b"; Atom (of_tk alnumus) "a"]]]).
Proof.
  split.
  - apply (level_chain_folds_from_the_left subtraction_chain 0 7 3).
    + reflexivity.
    + simpl. repeat split; try reflexivity; intros; lia.
    + reflexivity.
  - apply (level_chain_folds_from_the_left long_assignment_chain 0 7 3).
    + reflexivity.
    + simpl. repeat split; try reflexivity; intros; lia.
    + reflexivity.
Defined.

(** X4. An operator that is followed, behind its operand, by a more
    important operator takes the whole rest of the expression as its other
    operand, not only the operations that bind tighter: in a flat
    expression [x op E], where the first operator of [E] is more important
    than [op], the tree is [op] over [x] and the tree of [E] (swapped
    when [op] associates to the right).  So [a - b * c - d] is read as
    [a - (b * c - d)]. *)
Theorem rest_becomes_the_operand tks b q e :
  atom_at tks b = true -> binary_at tks (b + 1) = true ->
  operand tks e (b + 2) q -> chain tks e q ->
  importance_at tks (b + 1) < importance_at tks q ->
  exists n node,
    build_statement tks (b + 2) e None = Ok (Some n) /\
    build_statement tks b e None = Ok (Some node) /\
    ast_of tks node =
      Op (of_tk (kind_at tks (b + 1)))
        (if right_at tks (b + 1)
         then [ast_of tks n; ast_of tks (leaf_at tks b)]
         else [ast_of tks (leaf_at tks b); ast_of tks n]).
Proof.
  intros Ha Hbin Hop Hch Himp.
  assert (Hflat : flat tks (b + 2) e) by (right; exists q; auto).
  destruct (flat_builds tks (b + 2) e Hflat) as (n & Hn & _).
  destruct (chain_head tks e q Hch) as [Hqe Hqb].
  exists n.
  exists (attach tks (b + 1) (push_back (leaf_at tks (b + 1)) (leaf_at tks b))
            n).
  split; [exact Hn|]. split.
  - rewrite (build_statement_unfold tks b e None).
    rewrite step_atom_op
      by (try assumption;
          destruct Hop as [(Hl & _ & Hq)|(Hl & _ & _ & Hq)]; lia).
    rewrite build_statement_unfold.
    replace (b + 2) with (b + 1 + 1) in * by lia.
    apply Nat.ltb_lt in Himp.
    destruct Hop as [(Hl & Hat & He)|(Hl & Hu & Hat & He)]; subst q.
    + replace (b + 1 + 1 + 1) with (b + 1 + 2) in * by lia.
      rewrite follow_atom_op by (try assumption; lia).
      rewrite Himp, Hn. reflexivity.
    + replace (b + 1 + 1 + 2) with (b + 1 + 3) in * by lia.
      rewrite follow_unary_op by (try assumption; lia).
      rewrite Himp, Hn. reflexivity.
  - unfold attach, push_front, push_back, leaf_at at 1 3.
    destruct (right_at tks (b + 1)); reflexivity.
Qed.

Lemma rest_becomes_the_operand_witness :
  exists n node,
    build_statement difference_of_product 2 7 None = Ok (Some n) /\
    build_statement difference_of_product 0 7 None = Ok (Some node) /\
    ast_of difference_of_product node =
      Op (of_tk subtraction)
        [Atom (of_tk alnumus) "a";
         Op (of_tk subtraction)
           [Op (of_tk multiplication)
              [Atom (of_tk alnumus) "b"; Atom (of_tk alnumus) "c"];
            Atom (of_tk alnumus) "d"]].
Proof.
  destruct (rest_becomes_the_operand difference_of_product 0 3 7)
    as (n & node & Hn & Hnode & Hast).
  - reflexivity.
  - reflexivity.
  - left. repeat split; solve [reflexivity | lia].
  - apply chain_more with (q' := 5); [lia|reflexivity| |].
    + left. repeat split; solve [reflexivity | lia].
    + apply chain_last; [lia|reflexivity|].
      left. repeat split; solve [reflexivity | lia].
  - vm_compute. lia.
  - exists n, node. split; [exact Hn|]. split; [exact Hnode|].
    rewrite Hast. rewrite build_statement_unfold in Hn.
    vm_compute in Hn. injection Hn as <-. reflexivity.
Defined.

(** ** Calls *)

(** X5. The arguments of a call are not parsed by the builder: an operand
    followed by a parenthesis that closes at the end of the range gives
    the [function_call_] node over the operand and an [arguments_] node
    that only spans what stands between the parentheses, whatever that
    is. *)
Theorem call_arguments_unparsed tks b e :
  atom_at tks b = true ->
  kind_at tks (b + 1) = open_scope ->
  find_scope tks (b + 1) e = mkScope true (b + 1) e ->
  build_statement tks b e None =
  Ok (Some (mkNode function_call_ (Some (b, e))
              [leaf_at tks b; Node_span arguments_ (b + 2) (pred e)])).
Proof.
  intros Ha Ko Hs.
  assert (Hlt : b + 1 < e).
  { unfold find_scope, find_scope_of in Hs.
    destruct (b + 1 <? e) eqn:Hc; [apply Nat.ltb_lt in Hc; exact Hc|].
    discriminate Hs. }
  rewrite build_statement_unfold. kind_facts. unfold build_step. cbv zeta.
  at_cursor. use_facts. rewrite Ko. cbn [tk_enum_beq].
  cbv iota. rewrite Hs. cbn [valid negb scope_end].
  rewrite Nat.eqb_refl.
  unfold make_function_call, push_back, Node_span, contained_begin,
    contained_end. cbn [type span body app scope_begin scope_end].
  replace (S (b + 1)) with (b + 2) by lia. reflexivity.
Qed.

Lemma call_arguments_unparsed_witness :
  atom_at call_of_operator 0 = true /\
  kind_at call_of_operator 1 = open_scope /\
  find_scope call_of_operator 1 4 = mkScope true 1 4 /\
  build_statement call_of_operator 0 4 None =
  Ok (Some (mkNode function_call_ (Some (0, 4))
              [leaf_at call_of_operator 0; Node_span arguments_ 2 3])).
Proof.
  split; [reflexivity|]. split; [reflexivity|]. split; [reflexivity|].
  exact (call_arguments_unparsed call_of_operator 0 4 eq_refl eq_refl
           eq_refl).
Defined.

(** ** Flat expressions and the statement finders *)

Lemma operand_tokens tks e p q x :
  operand tks e p q -> p <= x < q ->
  expression_token (kind_at tks x) = true.
Proof.
  unfold expression_token.
  intros [(Hl & Ha & Hq)|(Hl & Hu & Ha & Hq)] Hx;
    unfold atom_at, unary_at in *.
  - replace x with p by lia. rewrite Ha. reflexivity.
  - assert (Hc : x = p \/ x = p + 1) by lia.
    destruct Hc as [-> | ->].
    + rewrite Hu. rewrite orb_true_r. reflexivity.
    + rewrite Ha. reflexivity.
Qed.

Lemma operand_range tks e p q : operand tks e p q -> p < q <= e.
Proof. intros [(Hl & Ha & Hq)|(Hl & Hu & Ha & Hq)]; lia. Qed.

Lemma chain_tokens tks e q :
  chain tks e q -> forall x, q <= x < e ->
  expression_token (kind_at tks x) = true.
Proof.
  induction 1 as [q Hlt Hb Hop|q q' Hlt Hb Hop Hch IH]; intros x Hx.
  - destruct (Nat.eq_dec x q) as [->|Hne].
    + unfold expression_token. unfold binary_at in Hb. rewrite Hb.
      apply orb_true_r.
    + apply (operand_tokens tks e (q + 1) e x Hop). lia.
  - pose proof (operand_range tks e (q + 1) q' Hop) as Hr.
    destruct (Nat.eq_dec x q) as [->|Hne].
    + unfold expression_token. unfold binary_at in Hb. rewrite Hb.
      apply orb_true_r.
    + destruct (Nat.lt_ge_cases x q') as [Hlt'|Hge].
      * apply (operand_tokens tks e (q + 1) q' x Hop). lia.
      * apply IH. lia.
Qed.

Lemma flat_tokens tks b e :
  flat tks b e -> forall x, b <= x < e ->
  expression_token (kind_at tks x) = true.
Proof.
  intros [Hop|(q & Hop & Hch)] x Hx.
  - apply (operand_tokens tks e b e x Hop Hx).
  - destruct (Nat.lt_ge_cases x q) as [Hlt|Hge].
    + apply (operand_tokens tks e b q x Hop). lia.
    + apply (chain_tokens tks e q Hch). lia.
Qed.

Lemma flat_range tks b e : flat tks b e -> b < e.
Proof.
  intros [Hop|(q & Hop & Hch)].
  - apply operand_range in Hop. lia.
  - apply operand_range in Hop. apply chain_head in Hch. lia.
Qed.

Lemma expression_token_passes repeats open k :
  expression_token k = true ->
  repeats = true \/ expression_token open = false ->
  passes repeats open eos k = true.
Proof.
  intros Hk Ho. unfold passes.
  destruct k; try discriminate Hk; cbn [opener closer tk_enum_beq negb andb];
    (destruct Ho as [-> | Ho]; [reflexivity|]);
    destruct open; try discriminate Ho; destruct repeats; reflexivity.
Qed.

(** The scan walks over the tokens that pass and stops behind the
    terminator. *)
Lemma scan_statement_reaches tks repeats open close : forall n pos s,
  pos <= s -> s < pos + n ->
  (forall p, pos <= p < s ->
     passes repeats open close (kind_at tks p) = true) ->
  kind_at tks s = close ->
  scan_statement tks repeats open close n pos no_depth = Some (S s).
Proof.
  induction n as [|n IH]; intros pos s Hle Hlt Hp Hs; [lia|].
  cbn [scan_statement]. cbv zeta.
  destruct (Nat.eq_dec pos s) as [->|Hne].
  - rewrite Hs, (internal_tk_enum_dec_lb close close eq_refl). reflexivity.
  - assert (Hpos : passes repeats open close (kind_at tks pos) = true)
      by (apply Hp; lia).
    unfold passes in Hpos.
    destruct (opener (kind_at tks pos)); [discriminate|].
    destruct (closer (kind_at tks pos)); [discriminate|].
    apply andb_true_iff in Hpos. destruct Hpos as [Hc Ho].
    apply negb_true_iff in Hc. rewrite Hc. rewrite andb_false_r.
    replace (level no_depth && negb repeats
             && tk_enum_beq (kind_at tks pos) open) with false.
    + apply IH; try assumption; try lia. intros p Hr. apply Hp. lia.
    + symmetry. destruct repeats; [reflexivity|]. simpl in Ho.
      apply negb_true_iff in Ho. rewrite Ho. reflexivity.
Qed.

Lemma find_statement_of_reaches tks repeats open close b s e :
  kind_at tks b = open -> b < s -> s < e ->
  (forall p, b < p < s ->
     passes repeats open close (kind_at tks p) = true) ->
  kind_at tks s = close ->
  find_statement_of tks repeats open close b e = mkScope true b (S s).
Proof.
  intros Kb Hbs Hse Hp Ks. unfold find_statement_of.
  replace (b <? e) with true by (symmetry; apply Nat.ltb_lt; lia).
  rewrite Kb, (internal_tk_enum_dec_lb open open eq_refl). cbn [andb].
  assert (Hscan : scan_statement tks repeats open close (e - S b) (S b)
                    no_depth = Some (S s)).
  { apply scan_statement_reaches; try assumption; lia. }
  rewrite Hscan. reflexivity.
Qed.

(** X6. A flat expression that ends in [;] is accepted by
    [ParseValueExpression]: the result is valid, its node is the tree
    [build_statement] gives for the expression, and the cursor stands
    behind the [;]. *)
Theorem flat_value_expression_parses tks b s e :
  flat tks b s -> kind_at tks s = eos -> s < e ->
  exists n,
    build_statement tks b s None = Ok (Some n) /\
    arity_ok n = true /\
    ParseValueExpression tks b e =
    Ok (make_success "ParseValueExpression" n (S s)).
Proof.
  intros Hflat Ks Hse.
  destruct (flat_builds tks b s Hflat) as (n & Hn & Hok).
  pose proof (flat_range tks b s Hflat) as Hr.
  exists n. split; [exact Hn|]. split; [exact Hok|].
  unfold ParseValueExpression, kind. cbv zeta.
  unfold find_open_statement.
  rewrite (find_statement_of_reaches tks true (kind_at tks b) eos b s e);
    try assumption; try lia; try reflexivity.
  2:{ intros p Hp. apply expression_token_passes; [|left; reflexivity].
      apply (flat_tokens tks b s Hflat). lia. }
  unfold contained_end. cbn [scope_end Nat.pred]. rewrite Hn. reflexivity.
Qed.

Lemma sum_statement_flat : flat sum_statement 0 5.
Proof.
  right. exists 1. split.
  - left. repeat split; solve [reflexivity | lia].
  - apply chain_more with (q' := 3); [lia|reflexivity| |].
    + left. repeat split; solve [reflexivity | lia].
    + apply chain_last; [lia|reflexivity|].
      left. repeat split; solve [reflexivity | lia].
Qed.

Lemma flat_value_expression_parses_witness :
  flat sum_statement 0 5 /\ kind_at sum_statement 5 = eos /\ 5 < 7 /\
  exists n,
    build_statement sum_statement 0 5 None = Ok (Some n) /\
    arity_ok n = true /\
    ParseValueExpression sum_statement 0 7 =
    Ok (make_success "ParseValueExpression" n 6).
Proof.
  split; [exact sum_statement_flat|]. split; [reflexivity|].
  split; [lia|].
  apply (flat_value_expression_parses sum_statement 0 5 7).
  - exact sum_statement_flat.
  - reflexivity.
  - lia.
Defined.

(** * Further properties of the parsing processes *)

(** ** Kinds at positions *)

Lemma kind_at_in_range tks p : kind_at tks p <> eof -> p < List.length tks.
Proof.
  intros H. destruct (Nat.lt_ge_cases p (List.length tks)) as [|Hge];
    [assumption|].
  exfalso. apply H. unfold kind_at. rewrite nth_overflow by exact Hge.
  reflexivity.
Qed.

Lemma find_forward_of_kinds tks : forall ks p,
  kinds_at tks p ks -> ~ In eof ks -> find_forward tks p ks = true.
Proof.
  induction ks as [|k ks IH]; intros p H Hn; [reflexivity|].
  destruct H as [K H]. simpl.
  assert (Hlt : p < List.length tks).
  { apply kind_at_in_range. rewrite K. intros Heq. apply Hn. left.
    exact Heq. }
  apply Nat.ltb_lt in Hlt. rewrite Hlt, K.
  rewrite (internal_tk_enum_dec_lb k k eq_refl). simpl.
  apply IH; [exact H|]. intros Hin. apply Hn. right. exact Hin.
Qed.

Lemma find_forward_mismatch tks p ks i k :
  nth_error ks i = Some k -> kind_at tks (p + i) <> k ->
  find_forward tks p ks = false.
Proof.
  intros Hi Hk. destruct (find_forward tks p ks) eqn:H; [|reflexivity].
  exfalso. apply Hk. eapply find_forward_kinds; eauto.
Qed.

Lemma kinds_at_nth tks : forall ks p i k,
  kinds_at tks p ks -> nth_error ks i = Some k -> kind_at tks (p + i) = k.
Proof.
  induction ks as [|k0 ks IH]; intros p i k H Hi.
  - destruct i; discriminate.
  - destruct H as [K H]. destruct i as [|i]; simpl in Hi.
    + injection Hi as <-. rewrite Nat.add_0_r. exact K.
    + rewrite Nat.add_succ_r. apply (IH (S p) i k H Hi).
Qed.

(** ** Literals and identifier statements *)




(** ** Sigils *)

Lemma scan_tokens_pack_range tks e : forall masks pos,
  scan_tokens_pack tks masks pos e = true ->
  List.length (filter (fun m => negb (snd m)) masks) = 0 \/
  pos + List.length (filter (fun m => negb (snd m)) masks) <= e.
Proof.
  induction masks as [|[k opt] ms IH]; intros pos H; simpl in *; [auto|].
  destruct ((pos <? e) && tk_enum_beq (kind tks pos) k) eqn:Hc.
  - apply andb_true_iff in Hc. destruct Hc as [Hlt _].
    apply Nat.ltb_lt in Hlt. apply IH in H.
    destruct opt; simpl; lia.
  - destruct opt; [|discriminate]. simpl. apply IH in H. exact H.
Qed.

(** X9. [ParseCsoInt] and [ParseCsoUint] never fail.  On every range
    that opens with the sigil the process asserts, the result is valid and
    its node has the kind of the sigil; either the node has the two bounds
    as children and the cursor stands behind a constraint that lies within
    the range, or the node is bare and the cursor stands behind the sigil,
    a constraint that is malformed being left unread and undiagnosed. *)
Theorem integer_sigils_never_fail tks b e :
  b < e ->
  (kind_at tks b = aint_ ->
   res_valid (ParseCsoInt tks b e) = true /\
   type (res_node (ParseCsoInt tks b e)) = of_tk aint_ /\
   ((body (res_node (ParseCsoInt tks b e)) = [] /\
     res_it (ParseCsoInt tks b e) = S b) \/
    (List.length (body (res_node (ParseCsoInt tks b e))) = 2 /\
     b + 6 <= res_it (ParseCsoInt tks b e) <= e))) /\
  (kind_at tks b = auint_ ->
   res_valid (ParseCsoUint tks b e) = true /\
   type (res_node (ParseCsoUint tks b e)) = of_tk auint_ /\
   ((body (res_node (ParseCsoUint tks b e)) = [] /\
     res_it (ParseCsoUint tks b e) = S b) \/
    (List.length (body (res_node (ParseCsoUint tks b e))) = 2 /\
     res_it (ParseCsoUint tks b e) = b + 6 /\ b + 6 <= e))).
Proof.
  intros Hbe. split; intros _.
  - unfold ParseCsoInt. cbv zeta.
    destruct (scan_tokens_pack tks constrained_int_type_mask b e) eqn:Hs.
    + apply scan_tokens_pack_range in Hs. simpl in Hs.
      rewrite ?next_it.
      destruct (type_is tks (next 2 (cursor b e)) subtraction);
        [destruct (type_is tks (next 5 (cursor b e)) subtraction)
        |destruct (type_is tks (next 4 (cursor b e)) subtraction)];
        (split; [reflexivity|]); (split; [reflexivity|]); right;
        (split; [reflexivity|]); cbn [res_it make_success make_result];
        lia.
    + repeat split. left. split; reflexivity.
  - unfold ParseCsoUint. cbv zeta.
    destruct (scan_tokens_pack tks constrained_uint_type_mask b e) eqn:Hs.
    + apply scan_tokens_pack_range in Hs. simpl in Hs.
      rewrite ?next_it.
      (split; [reflexivity|]); (split; [reflexivity|]); right;
        (split; [reflexivity|]); cbn [res_it make_success make_result];
        lia.
    + rewrite ?next_it. repeat split. left. split; [reflexivity|].
      cbn [res_it make_success make_result]. lia.
Qed.

Lemma integer_sigils_never_fail_witness :
  (res_valid (ParseCsoInt int_negated 0 7) = true /\
   type (res_node (ParseCsoInt int_negated 0 7)) = of_tk aint_ /\
   ((body (res_node (ParseCsoInt int_negated 0 7)) = [] /\
     res_it (ParseCsoInt int_negated 0 7) = 1) \/
    (List.length (body (res_node (ParseCsoInt int_negated 0 7))) = 2 /\
     0 + 6 <= res_it (ParseCsoInt int_negated 0 7) <= 7))) /\
  (res_valid (ParseCsoUint uint_negated 0 7) = true /\
   type (res_node (ParseCsoUint uint_negated 0 7)) = of_tk auint_ /\
   ((body (res_node (ParseCsoUint uint_negated 0 7)) = [] /\
     res_it (ParseCsoUint uint_negated 0 7) = 1) \/
    (List.length (body (res_node (ParseCsoUint uint_negated 0 7))) = 2 /\
     res_it (ParseCsoUint uint_negated 0 7) = 0 + 6 /\ 0 + 6 <= 7))).
Proof.
  split.
  - apply (proj1 (integer_sigils_never_fail int_negated 0 7 ltac:(lia))).
    reflexivity.
  - apply (proj2 (integer_sigils_never_fail uint_negated 0 7 ltac:(lia))).
    reflexivity.
Defined.

Lemma pointer_chain_parses tks e : forall n p fuel,
  pointer_chain tks p n -> p + 2 * n < e -> n < fuel ->
  ParseCandiSpecialObject_fuel tks fuel p e =
  Ok (make_success
        (if n =? 0 then
           match kind_at tks p with
           | atype_ => "ParseCsoType" | avalue_ => "ParseCsoValue"
           | aidentity_ => "ParseCsoIdentity" | areal_ => "ParseCsoReal"
           | aoctet_ => "ParseCsoOctet" | _ => "ParseCsoBit"
           end
         else "ParseCsoPointer")
        (pointer_node
           (Node_span (of_tk (kind_at tks (p + 2 * n))) (p + 2 * n)
              (S (p + 2 * n))) n)
        (p + 2 * n + 1 + n)).
Proof.
  induction n as [|n IH]; intros p fuel Hch He Hf;
    (destruct fuel as [|fuel]; [lia|]); cbn [ParseCandiSpecialObject_fuel].
  - simpl in Hch. unfold kind. replace (p + 2 * 0) with p by lia.
    replace (p + 1 + 0) with (S p) by lia.
    destruct (kind_at tks p); try discriminate Hch; reflexivity.
  - destruct Hch as (K0 & K1 & Hch). unfold kind. rewrite K0.
    cbv zeta.
    assert (K2 : kind_at tks (p + 2) <> alnumus).
    { destruct n; simpl in Hch.
      - intros Heq. rewrite Heq in Hch. discriminate.
      - destruct Hch as (K & _). rewrite K. discriminate. }
    change (it_ (cursor p e)) with p.
    rewrite (find_forward_mismatch tks p
               [apointer_; open_frame; alnumus; close_frame] 2 alnumus
               eq_refl K2).
    rewrite (find_forward_of_kinds tks [apointer_; open_frame] p).
    2:{ repeat split; [exact K0|]. rewrite <- Nat.add_1_r. exact K1. }
    2:{ simpl. intros [H|[H|[]]]; discriminate. }
    rewrite next_it. replace (Nat.min e (p + 2)) with (p + 2) by lia.
    rewrite (IH (p + 2) fuel) by (try assumption; lia).
    cbn [bind res_valid make_success make_result res_node res_it].
    cbn [Nat.eqb pointer_node]. unfold make_success.
    replace (p + 2 + 2 * n) with (p + 2 * S n) by lia.
    replace (p + 2 * S n + 1 + n + 1) with (p + 2 * S n + 1 + S n) by lia.
    reflexivity.
Qed.

(** X10. The closing frame of a pointer is checked only when the pointee
    is an identifier.  For [n + 1] levels of [&pointer] with an opening
    frame around a sigil that stands alone, [ParseCandiSpecialObject]
    returns the nested pointer nodes around the leaf of the sigil and
    moves the cursor one token per level behind the sigil, whatever tokens
    stand there and whether or not they lie within the range.  For an
    identifier, [&pointer[T]] gives the pointer node over the leaf of [T],
    and anything but a closing frame behind [T] makes the routine
    throw. *)
Theorem pointer_closing_frames tks b e :
  (forall n,
     pointer_chain tks b (S n) -> b + 2 * S n < e ->
     ParseCandiSpecialObject tks b e =
     Ok (make_success "ParseCsoPointer"
           (pointer_node
              (Node_span (of_tk (kind_at tks (b + 2 * S n))) (b + 2 * S n)
                 (S (b + 2 * S n))) (S n))
           (b + 2 * S n + 1 + S n))) /\
  (kinds_at tks b [apointer_; open_frame; alnumus; close_frame] ->
   b + 4 <= e ->
   ParseCandiSpecialObject tks b e =
   Ok (make_success "ParseCsoPointer"
         (mkNode (of_tk apointer_) None
            [Node_span (of_tk alnumus) (b + 2) (b + 3)])
         (b + 4))) /\
  (kinds_at tks b [apointer_; open_frame; alnumus] ->
   kind_at tks (b + 3) <> close_frame -> b + 3 <= e ->
   ParseCandiSpecialObject tks b e =
   Throw (runtime_error
     "ParseCsoPointer: Invalid CSO Type in &pointer type constraint.")).
Proof.
  split; [|split].
  - intros n Hch He. unfold ParseCandiSpecialObject.
    rewrite (pointer_chain_parses tks e (S n) b) by (try assumption; lia).
    reflexivity.
  - intros H He.
    pose proof (kinds_at_nth _ _ _ 0 _ H eq_refl) as K0.
    pose proof (kinds_at_nth _ _ _ 2 _ H eq_refl) as K2.
    rewrite Nat.add_0_r in K0.
    unfold ParseCandiSpecialObject. cbn [ParseCandiSpecialObject_fuel].
    unfold kind. rewrite K0. cbv zeta.
    change (it_ (cursor b e)) with b.
    rewrite (find_forward_of_kinds tks _ b H)
      by (simpl; intros [E|[E|[E|[E|[]]]]]; discriminate).
    unfold stmt. rewrite to_statement_next by lia. rewrite next_it.
    replace (Nat.min e (b + 4)) with (b + 4) by lia. rewrite K2.
    unfold push_back, Node_of, Node_span. cbn [type span body app].
    replace (S (b + 2)) with (b + 3) by lia. reflexivity.
  - intros H Hk He.
    pose proof (kinds_at_nth _ _ _ 0 _ H eq_refl) as K0.
    pose proof (kinds_at_nth _ _ _ 1 _ H eq_refl) as K1.
    pose proof (kinds_at_nth _ _ _ 2 _ H eq_refl) as K2.
    rewrite Nat.add_0_r in K0.
    unfold ParseCandiSpecialObject.
    destruct (e - b) as [|fuel] eqn:Hf; [lia|].
    cbn [ParseCandiSpecialObject_fuel].
    unfold kind. rewrite K0. cbv zeta.
    change (it_ (cursor b e)) with b.
    rewrite (find_forward_mismatch tks b
               [apointer_; open_frame; alnumus; close_frame] 3 close_frame
               eq_refl Hk).
    rewrite (find_forward_of_kinds tks [apointer_; open_frame] b).
    2:{ repeat split; [exact K0|]. rewrite <- Nat.add_1_r. exact K1. }
    2:{ simpl. intros [E|[E|[]]]; discriminate. }
    rewrite next_it. replace (Nat.min e (b + 2)) with (b + 2) by lia.
    unfold kind. rewrite K2. reflexivity.
Qed.

Lemma pointer_closing_frames_witness :
  pointer_chain pointer_without_frames 0 2 /\
  ParseCandiSpecialObject pointer_without_frames 0 5 =
  Ok (make_success "ParseCsoPointer"
        (pointer_node (Node_span (of_tk atype_) 4 5) 2) 7) /\
  ParseCandiSpecialObject pointer_to_name 0 5 =
  Ok (make_success "ParseCsoPointer"
        (mkNode (of_tk apointer_) None [Node_span (of_tk alnumus) 2 3]) 4) /\
  ParseCandiSpecialObject pointer_to_name_unclosed 0 5 =
  Throw (runtime_error
    "ParseCsoPointer: Invalid CSO Type in &pointer type constraint.").
Proof.
  assert (H : pointer_chain pointer_without_frames 0 2).
  { simpl. repeat split; reflexivity. }
  split; [exact H|]. split; [|split].
  - apply (proj1 (pointer_closing_frames pointer_without_frames 0 5) 1 H).
    lia.
  - apply (proj1 (proj2 (pointer_closing_frames pointer_to_name 0 5))).
    + simpl. repeat split; reflexivity.
    + lia.
  - apply (proj2 (proj2 (pointer_closing_frames pointer_to_name_unclosed
                           0 5))).
    + simpl. repeat split; reflexivity.
    + discriminate.
    + lia.
Defined.

(** X11. [ParseCsoArray] with an identifier as element type reads
    [&array], the opening frame, the identifier, a comma and a number,
    and returns the node over the identifier and the number with the
    cursor six tokens on: the token where the closing frame belongs is
    not looked at.  Without the comma and the number it throws. *)
Theorem array_closing_frame_unchecked tks b e :
  (kinds_at tks b [aarray_; open_frame; alnumus; comma; number_literal] ->
   b + 6 <= e ->
   ParseCsoArray tks b e =
   Ok (make_success "ParseCsoArray"
         (mkNode (of_tk aarray_) None
            [Node_span (of_tk alnumus) (b + 2) (b + 3);
             Node_span (of_tk number_literal) (b + 4) (b + 5)])
         (b + 6))) /\
  (kinds_at tks b [aarray_; open_frame; alnumus] ->
   kind_at tks (b + 3) <> comma \/ kind_at tks (b + 4) <> number_literal ->
   b + 3 <= e ->
   ParseCsoArray tks b e =
   Throw (runtime_error
     "ParseCsoArray: aarray_ must have a value constraint. Invalid array size.")).
Proof.
  split.
  - intros H He. unfold ParseCsoArray. cbv zeta.
    change (it_ (cursor b e)) with b.
    assert (H3 : find_forward tks b [aarray_; open_frame; alnumus] = true).
    { apply find_forward_of_kinds.
      - destruct H as (? & ? & ? & _). repeat split; assumption.
      - simpl. intros [E|[E|[E|[]]]]; discriminate. }
    rewrite H3. rewrite next_it.
    replace (Nat.min e (b + 3)) with (b + 3) by lia.
    assert (H2 : find_forward tks (b + 3) [comma; number_literal] = true).
    { apply find_forward_of_kinds.
      - destruct H as (_ & _ & _ & K3 & K4 & _).
        replace (b + 3) with (S (S (S b))) by lia.
        repeat split; assumption.
      - simpl. intros [E|[E|[]]]; discriminate. }
    rewrite H2. destruct H as (K0 & K1 & K2 & K3 & K4 & _).
    unfold stmt. rewrite !to_statement_next by lia. rewrite next_it.
    replace (Nat.min e (b + 6)) with (b + 6) by lia.
    replace (b + 2) with (S (S b)) by lia.
    replace (b + 4) with (S (S (S (S b)))) by lia.
    rewrite K2, K4. unfold push_back, Node_of, Node_span. simpl.
    repeat f_equal; lia.
  - intros H Hk He. unfold ParseCsoArray. cbv zeta.
    change (it_ (cursor b e)) with b.
    rewrite (find_forward_of_kinds tks _ b H).
    2:{ simpl. intros [E|[E|[E|[]]]]; discriminate. }
    rewrite next_it. replace (Nat.min e (b + 3)) with (b + 3) by lia.
    destruct Hk as [Hk|Hk].
    + rewrite (find_forward_mismatch tks (b + 3) [comma; number_literal] 0
                 comma eq_refl).
      * reflexivity.
      * rewrite Nat.add_0_r. exact Hk.
    + rewrite (find_forward_mismatch tks (b + 3) [comma; number_literal] 1
                 number_literal eq_refl).
      * reflexivity.
      * replace (b + 3 + 1) with (b + 4) by lia. exact Hk.
Qed.

Lemma array_closing_frame_unchecked_witness :
  kind_at array_without_frame 5 = eos /\
  ParseCsoArray array_without_frame 0 7 =
  Ok (make_success "ParseCsoArray"
        (mkNode (of_tk aarray_) None
           [Node_span (of_tk alnumus) 2 3;
            Node_span (of_tk number_literal) 4 5])
        6) /\
  ParseCsoArray array_without_size 0 5 =
  Throw (runtime_error
    "ParseCsoArray: aarray_ must have a value constraint. Invalid array size.").
Proof.
  split; [reflexivity|]. split.
  - apply (proj1 (array_closing_frame_unchecked array_without_frame 0 7)).
    + simpl. repeat split; reflexivity.
    + lia.
  - apply (proj2 (array_closing_frame_unchecked array_without_size 0 5)).
    + simpl. repeat split; reflexivity.
    + left. discriminate.
    + lia.
Defined.

(** ** The type directive *)

Lemma type_alias_parses tks b e :
  kinds_at tks b type_alias_head -> b + 5 <= e ->
  ParseDirectiveType tks b e =
  Ok (make_success "ParseDirectiveType" (type_alias_node b) (b + 6)).
Proof.
  intros H He.
  pose proof (kinds_at_nth _ _ _ 0 _ H eq_refl) as K0.
  pose proof (kinds_at_nth _ _ _ 1 _ H eq_refl) as K1.
  pose proof (kinds_at_nth _ _ _ 2 _ H eq_refl) as K2.
  pose proof (kinds_at_nth _ _ _ 3 _ H eq_refl) as K3.
  pose proof (kinds_at_nth _ _ _ 4 _ H eq_refl) as K4.
  rewrite Nat.add_0_r in K0.
  unfold ParseDirectiveType, is_kind, kind. cbv zeta.
  rewrite K0. cbn [tk_enum_beq negb].
  rewrite (next_cursor 1 b e) by lia.
  rewrite (next_cursor 1 (b + 1) e), (next_cursor 2 (b + 1) e),
    (next_cursor 3 (b + 1) e) by lia.
  rewrite !type_is_at by lia.
  replace (b + 1 + 1) with (b + 2) by lia.
  replace (b + 1 + 2) with (b + 3) by lia.
  replace (b + 1 + 3) with (b + 4) by lia.
  rewrite K1, K2, K3, K4. cbn [tk_enum_beq negb].
  cbn [ParseAlnumusLiteral parse_leaf make_success_node make_result
       res_valid res_it negb token_end Node_span span it_ cursor].
  unfold make_success, push_back, Node_span, type_alias_node.
  cbn [type span body app].
  replace (S (b + 3)) with (b + 4) by lia.
  replace (b + 4 + 2) with (b + 6) by lia. reflexivity.
Qed.

Lemma bare_sigil_parses tks p e :
  is_bare_sigil (kind_at tks p) = true -> kind_at tks (p + 1) = eos ->
  p + 1 < e ->
  exists r,
    ParseCandiSpecialObject tks p e = Ok r /\
    res_valid r = true /\ res_it r = p + 1 /\
    type (res_node r) = of_tk (kind_at tks p) /\ body (res_node r) = [].
Proof.
  intros Hk Ke He. unfold ParseCandiSpecialObject.
  cbn [ParseCandiSpecialObject_fuel]. unfold kind.
  destruct (kind_at tks p) eqn:K; try discriminate Hk;
    try (eexists; split; [reflexivity|];
         repeat split; try reflexivity;
         cbn [res_it ParseCsoType ParseCsoValue ParseCsoIdentity
              ParseCsoReal ParseCsoOctet ParseCsoBit parse_leaf
              make_success_node make_result token_end Node_span span];
         lia).
  - unfold ParseCsoInt. cbv zeta.
    assert (Hs : scan_tokens_pack tks constrained_int_type_mask p e = false).
    { unfold constrained_int_type_mask. cbn [scan_tokens_pack].
      unfold kind. rewrite K.
      replace (p <? e) with true by (symmetry; apply Nat.ltb_lt; lia).
      cbn [tk_enum_beq andb].
      replace (S p) with (p + 1) by lia. rewrite Ke.
      rewrite andb_false_r. reflexivity. }
    rewrite Hs. eexists. split; [reflexivity|].
    repeat split; try reflexivity.
    cbn [res_it make_success_node make_result token_end Node_span span].
    lia.
  - unfold ParseCsoUint. cbv zeta.
    assert (Hs : scan_tokens_pack tks constrained_uint_type_mask p e = false).
    { unfold constrained_uint_type_mask. cbn [scan_tokens_pack].
      unfold kind. rewrite K.
      replace (p <? e) with true by (symmetry; apply Nat.ltb_lt; lia).
      cbn [tk_enum_beq andb].
      replace (S p) with (p + 1) by lia. rewrite Ke.
      rewrite andb_false_r. reflexivity. }
    rewrite Hs. eexists. split; [reflexivity|].
    repeat split; try reflexivity.
    cbn [res_it make_success make_result]. rewrite next_it. lia.
Qed.

(** X12. A type definition [#type name = T ;], [T] an identifier or a
    sigil without constraint, parses, and the cursor it returns is
    [begin + 6]: two tokens behind the [;] at [begin + 4], one more than
    the statement has.  For an identifier the third child of the node is
    a node of kind [aint_] over the identifier. *)
Theorem type_definition_overshoots tks b e :
  kinds_at tks b [type_; alnumus; simple_assignment] ->
  kind_at tks (b + 4) = eos -> b + 5 <= e ->
  (kind_at tks (b + 3) = alnumus ->
   ParseDirectiveType tks b e =
   Ok (make_success "ParseDirectiveType"
         (mkNode type_definition_ (Some (b, b + 4))
            [Node_span (of_tk alnumus) (b + 1) (b + 2);
             Node_span (of_tk simple_assignment) (b + 2) (b + 3);
             Node_span (of_tk aint_) (b + 3) (b + 4)])
         (b + 6))) /\
  (is_bare_sigil (kind_at tks (b + 3)) = true ->
   exists sigil,
     type sigil = of_tk (kind_at tks (b + 3)) /\ body sigil = [] /\
     ParseDirectiveType tks b e =
     Ok (make_success "ParseDirectiveType"
           (mkNode type_definition_ (Some (b, b + 5))
              [Node_span (of_tk alnumus) (b + 1) (b + 2);
               Node_span (of_tk simple_assignment) (b + 2) (b + 3);
               sigil])
           (b + 6))).
Proof.
  intros H K4 He.
  pose proof (kinds_at_nth _ _ _ 0 _ H eq_refl) as K0.
  pose proof (kinds_at_nth _ _ _ 1 _ H eq_refl) as K1.
  pose proof (kinds_at_nth _ _ _ 2 _ H eq_refl) as K2.
  rewrite Nat.add_0_r in K0.
  split.
  - intros K3. apply type_alias_parses; [|exact He].
    destruct H as (? & ? & ? & _). repeat split; try assumption.
    + replace (S (S (S b))) with (b + 3) by lia. exact K3.
    + replace (S (S (S (S b)))) with (b + 4) by lia. exact K4.
  - intros Hk.
    destruct (bare_sigil_parses tks (b + 3) e) as (r & Hr & Hv & Hi & Ht & Hb);
      try assumption; try lia.
    { replace (b + 3 + 1) with (b + 4) by lia. exact K4. }
    exists (res_node r). split; [exact Ht|]. split; [exact Hb|].
    unfold ParseDirectiveType, is_kind, kind. cbv zeta.
    rewrite K0. cbn [tk_enum_beq negb].
    rewrite (next_cursor 1 b e) by lia.
    rewrite (next_cursor 1 (b + 1) e), (next_cursor 2 (b + 1) e) by lia.
    rewrite !type_is_at by lia.
    replace (b + 1 + 1) with (b + 2) by lia.
    replace (b + 1 + 2) with (b + 3) by lia.
    rewrite K1, K2. cbn [tk_enum_beq negb].
    replace (tk_enum_beq (kind_at tks (b + 3)) alnumus) with false
      by (destruct (kind_at tks (b + 3)); try discriminate Hk; reflexivity).
    change (it_ (cursor (b + 3) e)) with (b + 3).
    rewrite Hr. cbn [bind]. rewrite Hv, Hi. cbn [negb].
    replace (b + 3 + 1) with (b + 4) by lia. rewrite K4.
    cbn [tk_enum_beq negb it_ cursor].
    unfold make_success, push_back, Node_span. cbn [type span body app].
    replace (b + 4 + 1) with (b + 5) by lia.
    replace (b + 4 + 2) with (b + 6) by lia. reflexivity.
Qed.

Lemma type_definition_overshoots_witness :
  ParseDirectiveType alias_then_declaration 0 5 =
  Ok (make_success "ParseDirectiveType"
        (mkNode type_definition_ (Some (0, 4))
           [Node_span (of_tk alnumus) 1 2;
            Node_span (of_tk simple_assignment) 2 3;
            Node_span (of_tk aint_) 3 4])
        6) /\
  exists sigil,
    type sigil = of_tk auint_ /\ body sigil = [] /\
    ParseDirectiveType type_of_sigil 0 5 =
    Ok (make_success "ParseDirectiveType"
          (mkNode type_definition_ (Some (0, 5))
             [Node_span (of_tk alnumus) 1 2;
              Node_span (of_tk simple_assignment) 2 3;
              sigil])
          6).
Proof.
  split.
  - apply (proj1 (type_definition_overshoots alias_then_declaration 0 5
                    ltac:(simpl; repeat split; reflexivity) eq_refl
                    ltac:(lia))).
    reflexivity.
  - apply (proj2 (type_definition_overshoots type_of_sigil 0 5
                    ltac:(simpl; repeat split; reflexivity) eq_refl
                    ltac:(lia))).
    reflexivity.
Defined.

(** X13. A type expression that is no identifier and does not open with
    one of the nine sigils [ParseCandiSpecialObject] dispatches on is an
    error of [ParseDirectiveType], reported at the type expression.
    [&array] is such a kind: [ParseCsoArray] is never reached from a type
    definition. *)
Theorem type_expression_rejected tks b e :
  kinds_at tks b [type_; alnumus; simple_assignment] ->
  kind_at tks (b + 3) <> alnumus ->
  is_special_object (kind_at tks (b + 3)) = false ->
  b + 4 <= e ->
  ParseDirectiveType tks b e =
  Ok (make_error "ParseDirectiveType" (b + 3)
        (nth (b + 3) tks sentinel_end_token)
        "ParseIdentifierStatement: Expected a type expression.").
Proof.
  intros H Hal Hso He.
  pose proof (kinds_at_nth _ _ _ 0 _ H eq_refl) as K0.
  pose proof (kinds_at_nth _ _ _ 1 _ H eq_refl) as K1.
  pose proof (kinds_at_nth _ _ _ 2 _ H eq_refl) as K2.
  rewrite Nat.add_0_r in K0.
  unfold ParseDirectiveType, is_kind, kind. cbv zeta.
  rewrite K0. cbn [tk_enum_beq negb].
  rewrite (next_cursor 1 b e) by lia.
  rewrite (next_cursor 1 (b + 1) e), (next_cursor 2 (b + 1) e) by lia.
  rewrite !type_is_at by lia.
  replace (b + 1 + 1) with (b + 2) by lia.
  replace (b + 1 + 2) with (b + 3) by lia.
  rewrite K1, K2. cbn [tk_enum_beq negb].
  rewrite (tk_enum_beq_false _ _ Hal).
  change (it_ (cursor (b + 3) e)) with (b + 3).
  unfold ParseCandiSpecialObject. cbn [ParseCandiSpecialObject_fuel].
  unfold kind, deref, get. cbn [it_ end_ cursor].
  replace (b + 3 <? e) with true by (symmetry; apply Nat.ltb_lt; lia).
  destruct (kind_at tks (b + 3)); try discriminate Hso; reflexivity.
Qed.

Lemma type_expression_rejected_witness :
  kind_at type_of_array 3 = aarray_ /\
  ParseDirectiveType type_of_array 0 11 =
  Ok (make_error "ParseDirectiveType" 3 (tok aarray_ "&array")
        "ParseIdentifierStatement: Expected a type expression.").
Proof.
  split; [reflexivity|].
  apply (type_expression_rejected type_of_array 0 11).
  - simpl. repeat split; reflexivity.
  - discriminate.
  - reflexivity.
  - lia.
Defined.

(** ** The variable and return directives on flat expressions *)

(** The tree of [x = E]: the assignment over the tree of [E] and the
    leaf [x], in this order. *)
Lemma assignment_of_flat tks p e :
  atom_at tks p = true -> kind_at tks (p + 1) = simple_assignment ->
  flat tks (p + 2) e -> above_assignment tks (p + 2) e ->
  exists n,
    build_statement tks (p + 2) e None = Ok (Some n) /\
    arity_ok n = true /\
    build_statement tks p e None =
    Ok (Some (mkNode (of_tk simple_assignment) (Some (p + 1, S (p + 1)))
                [n; leaf_at tks p])).
Proof.
  intros Ha Ke Hflat Hab.
  destruct (flat_builds tks (p + 2) e Hflat) as (n & Hn & Hok).
  exists n. split; [exact Hn|]. split; [exact Hok|].
  pose proof (flat_range tks (p + 2) e Hflat) as Hr.
  assert (Hbin : binary_at tks (p + 1) = true).
  { unfold binary_at. rewrite Ke. reflexivity. }
  assert (Hright : right_at tks (p + 1) = true).
  { unfold right_at. rewrite Ke. reflexivity. }
  assert (Himp : importance_at tks (p + 1) = importance_of simple_assignment).
  { unfold importance_at. rewrite Ke. reflexivity. }
  rewrite (build_statement_unfold tks p e None).
  rewrite step_atom_op by (try assumption; lia).
  rewrite build_statement_unfold.
  rewrite build_statement_unfold in Hn.
  replace (p + 2) with (p + 1 + 1) in * by lia.
  destruct Hflat as [Hop|(q & Hop & Hch)].
  - destruct Hop as [(Hl & Hat & He)|(Hl & Hu & Hat & He)].
    + rewrite step_atom_end in Hn by assumption.
      rewrite follow_atom_end by (try assumption; lia).
      injection Hn as <-. unfold attach. rewrite Hright.
      unfold push_front, push_back, leaf_at at 1 2, Node_span.
      cbn [type span body app]. rewrite Ke. reflexivity.
    + rewrite step_unary_end in Hn by assumption.
      rewrite follow_unary_end by (try assumption; lia).
      injection Hn as <-. unfold attach. rewrite Hright.
      unfold push_front, push_back at 1 3, leaf_at at 1 4, Node_span.
      cbn [type span body app]. rewrite Ke.
      replace (p + 1 + 2) with (p + 1 + 1 + 1) by lia. reflexivity.
  - destruct (chain_head tks e q Hch) as [Hqe Hqb].
    assert (Hq : importance_of simple_assignment < importance_at tks q).
    { apply Hab; [|exact Hqb]. apply operand_range in Hop. lia. }
    destruct Hop as [(Hl & Hat & He)|(Hl & Hu & Hat & He)]; subst q.
    + replace (p + 1 + 1 + 1) with (p + 1 + 2) in * by lia.
      rewrite follow_atom_op by (try assumption; lia).
      rewrite Himp.
      replace (importance_of simple_assignment <? importance_at tks (p + 1 + 2))
        with true by (symmetry; apply Nat.ltb_lt; exact Hq).
      rewrite <- build_statement_unfold in Hn. rewrite Hn.
      cbn [bind value]. unfold attach. rewrite Hright.
      unfold push_front, push_back, leaf_at at 1, Node_span.
      cbn [type span body app]. rewrite Ke. reflexivity.
    + replace (p + 1 + 1 + 2) with (p + 1 + 3) in * by lia.
      rewrite follow_unary_op by (try assumption; lia).
      rewrite Himp.
      replace (importance_of simple_assignment <? importance_at tks (p + 1 + 3))
        with true by (symmetry; apply Nat.ltb_lt; exact Hq).
      rewrite <- build_statement_unfold in Hn. rewrite Hn.
      cbn [bind value]. unfold attach. rewrite Hright.
      unfold push_front, push_back, leaf_at at 1, Node_span.
      cbn [type span body app]. rewrite Ke. reflexivity.
Qed.

Lemma var_of_flat tks b s e n :
  kinds_at tks b [var_; alnumus; simple_assignment] ->
  flat tks (b + 3) s -> above_assignment tks (b + 3) s ->
  kind_at tks s = eos -> s < e ->
  build_statement tks (b + 3) s None = Ok (Some n) ->
  ParseDirectiveVar tks b e =
  Ok (make_success "ParseDirectiveVar" (initialised_node b s n) (S s)).
Proof.
  intros H Hflat Hab Ks Hse Hbuilt.
  pose proof (kinds_at_nth _ _ _ 0 _ H eq_refl) as K0.
  pose proof (kinds_at_nth _ _ _ 1 _ H eq_refl) as K1.
  pose proof (kinds_at_nth _ _ _ 2 _ H eq_refl) as K2.
  rewrite Nat.add_0_r in K0.
  pose proof (flat_range tks (b + 3) s Hflat) as Hr.
  replace (b + 3) with (b + 1 + 2) in Hflat, Hab by lia.
  replace (b + 2) with (b + 1 + 1) in K2 by lia.
  destruct (assignment_of_flat tks (b + 1) s) as (n' & Hn & _ & Hwhole);
    try assumption.
  { unfold atom_at. rewrite K1. reflexivity. }
  replace (b + 1 + 2) with (b + 3) in * by lia.
  replace (b + 1 + 1) with (b + 2) in * by lia.
  rewrite Hbuilt in Hn. injection Hn as <-.
  unfold ParseDirectiveVar. cbv zeta.
  change (it_ (cursor b e)) with b.
  rewrite (find_forward_mismatch tks b [var_; alnumus; eos] 2 eos eq_refl)
    by (rewrite K2; discriminate).
  rewrite (find_forward_of_kinds tks [var_; alnumus; simple_assignment] b H)
    by (simpl; intros [E|[E|[E|[]]]]; discriminate).
  rewrite !next_it.
  replace (Nat.min e (b + 1)) with (b + 1) by lia.
  replace (Nat.min e (b + 2)) with (b + 2) by lia.
  unfold ParseValueExpression, kind. cbv zeta. rewrite K1.
  unfold find_open_statement.
  rewrite (find_statement_of_reaches tks true alnumus eos (b + 1) s e);
    try assumption; try lia.
  2:{ intros p Hp. apply expression_token_passes; [|left; reflexivity].
      destruct (Nat.eq_dec p (b + 2)) as [->|Hne].
      - rewrite K2. reflexivity.
      - apply (flat_tokens tks (b + 3) s Hflat). lia. }
  unfold contained_end. cbn [scope_end Nat.pred].
  rewrite Hwhole.
  cbn [bind make_success make_result res_valid res_node res_it negb].
  unfold initialised_node, push_back, Node_span, leaf_at.
  cbn [type span body app].
  rewrite K1. replace (S s - 1) with s by lia.
  replace (S (b + 2)) with (b + 3) by lia.
  replace (S (b + 1)) with (b + 2) by lia.
  reflexivity.
Qed.

(** X14. [#var name = E ;] with [E] a flat expression without assignment
    operators parses: the node spans the statement up to its [;] and has
    two children, the leaf of the name and the tree of the whole
    assignment, which is the [=] node over the tree of [E] and the leaf of
    the name, in this order; the cursor stands behind the [;]. *)
Theorem var_with_flat_initialiser tks b s e :
  kinds_at tks b [var_; alnumus; simple_assignment] ->
  flat tks (b + 3) s -> above_assignment tks (b + 3) s ->
  kind_at tks s = eos -> s < e ->
  exists n,
    build_statement tks (b + 3) s None = Ok (Some n) /\
    arity_ok n = true /\
    ParseDirectiveVar tks b e =
    Ok (make_success "ParseDirectiveVar"
          (mkNode anon_variable_definition_assingment_ (Some (b, s))
             [Node_span (of_tk alnumus) (b + 1) (b + 2);
              mkNode (of_tk simple_assignment) (Some (b + 2, b + 3))
                [n; Node_span (of_tk alnumus) (b + 1) (b + 2)]])
          (S s)).
Proof.
  intros H Hflat Hab Ks Hse.
  destruct (flat_builds tks (b + 3) s Hflat) as (n & Hn & Hok).
  exists n. split; [exact Hn|]. split; [exact Hok|].
  apply (var_of_flat tks b s e n H Hflat Hab Ks Hse Hn).
Qed.

Lemma flat_var_statement_flat : flat flat_var_statement 3 8.
Proof.
  right. exists 4. split.
  - left. repeat split; solve [reflexivity | lia].
  - apply chain_more with (q' := 6); [lia|reflexivity| |].
    + left. repeat split; solve [reflexivity | lia].
    + apply chain_last; [lia|reflexivity|].
      left. repeat split; solve [reflexivity | lia].
Qed.

Lemma flat_var_statement_above : above_assignment flat_var_statement 3 8.
Proof.
  intros q Hq Hb.
  assert (Hc : q = 3 \/ q = 4 \/ q = 5 \/ q = 6 \/ q = 7) by lia.
  destruct Hc as [-> |[-> |[-> |[-> | ->]]]];
    solve [discriminate Hb | vm_compute; lia].
Qed.

Lemma var_with_flat_initialiser_witness :
  flat flat_var_statement 3 8 /\ above_assignment flat_var_statement 3 8 /\
  exists n,
    build_statement flat_var_statement 3 8 None = Ok (Some n) /\
    arity_ok n = true /\
    ParseDirectiveVar flat_var_statement 0 10 =
    Ok (make_success "ParseDirectiveVar"
          (mkNode anon_variable_definition_assingment_ (Some (0, 8))
             [Node_span (of_tk alnumus) 1 2;
              mkNode (of_tk simple_assignment) (Some (2, 3))
                [n; Node_span (of_tk alnumus) 1 2]])
          9).
Proof.
  split; [exact flat_var_statement_flat|].
  split; [exact flat_var_statement_above|].
  apply (var_with_flat_initialiser flat_var_statement 0 8 10).
  - simpl. repeat split; reflexivity.
  - exact flat_var_statement_flat.
  - exact flat_var_statement_above.
  - reflexivity.
  - lia.
Defined.







(** ** Methods *)

(** X16. [ParseDirectiveFunc] does not validate the body of a method.
    In the shorthand form [#func name { ... } ;] the node of the body is
    taken from [ParseFunctionalBlock] without a look at its validity: a
    body that opens with a token the block rejects gives a valid method
    whose second child is the [invalid_] node.  In the constrained form
    [#func [ ... ] name { ... } ;] neither the constraints nor the body
    are parsed: the children only span their tokens. *)
Theorem method_body_unchecked tks b e :
  (forall se,
     kinds_at tks b [func_; alnumus; open_list] -> b + 3 <= e ->
     find_statement tks open_list close_list (b + 2) e =
       mkScope true (b + 2) se ->
     kind_at tks se = eos ->
     ~ In (kind_at tks (b + 3)) [eof; alnumus; return_; var_] ->
     b + 3 < pred se ->
     ParseDirectiveFunc tks b e =
     Ok (make_success "ParseDirectiveFunc"
           (mkNode shorthand_void_method_definition_ (Some (b, se + 2))
              [Node_span (of_tk alnumus) (b + 1) (b + 2);
               Node_of invalid_])
           (se + 1))) /\
  (forall fe se,
     kinds_at tks b [func_; open_frame] -> b + 2 <= e ->
     find_statement tks open_frame close_frame (b + 1) e =
       mkScope true (b + 1) fe ->
     kinds_at tks fe [alnumus; open_list] ->
     find_statement tks open_list close_list (fe + 1) e =
       mkScope true (fe + 1) se ->
     kind_at tks se = eos ->
     ParseDirectiveFunc tks b e =
     Ok (make_success "ParseDirectiveFunc"
           (mkNode shorthand_constrained_void_method_definition_
              (Some (b, se + 2))
              [Node_span type_constraints_ (b + 2) (pred fe);
               Node_span (of_tk alnumus) fe (fe + 1);
               Node_span functional_block_ (fe + 2) (pred se)])
           (se + 1))).
Proof.
  split.
  - intros se H He Hs Ks Hk Hlt.
    unfold ParseDirectiveFunc. cbv zeta.
    change (it_ (cursor b e)) with b. change (end_ (cursor b e)) with e.
    rewrite (find_forward_of_kinds tks [func_; alnumus; open_list] b H)
      by (simpl; intros [E|[E|[E|[]]]]; discriminate).
    rewrite !next_it.
    replace (Nat.min e (b + 2)) with (b + 2) by lia.
    replace (Nat.min e (b + 1)) with (b + 1) by lia.
    rewrite Hs. cbn [scope_end]. unfold is_kind, kind. rewrite Ks.
    cbn [tk_enum_beq]. unfold contained_begin, contained_end.
    cbn [scope_begin scope_end].
    replace (S (b + 2)) with (b + 3) by lia.
    rewrite functional_block_rejects by assumption.
    cbn [bind res_node make_error].
    unfold push_back, Node_span. cbn [type span body app]. reflexivity.
  - intros fe se H He Hf Hn Hs Ks.
    pose proof (kinds_at_nth _ _ _ 0 _ H eq_refl) as K0.
    pose proof (kinds_at_nth _ _ _ 1 _ H eq_refl) as K1.
    rewrite Nat.add_0_r in K0.
    unfold ParseDirectiveFunc. cbv zeta.
    change (it_ (cursor b e)) with b. change (end_ (cursor b e)) with e.
    rewrite (find_forward_mismatch tks b [func_; alnumus; open_list] 1
               alnumus eq_refl) by (rewrite K1; discriminate).
    rewrite (find_forward_mismatch tks b [func_; alnumus; open_scope] 1
               alnumus eq_refl) by (rewrite K1; discriminate).
    rewrite (find_forward_of_kinds tks [func_; open_frame] b H)
      by (simpl; intros [E|[E|[]]]; discriminate).
    rewrite !next_it.
    replace (Nat.min e (b + 1)) with (b + 1) by lia.
    rewrite Hf. cbn [scope_end].
    rewrite (find_forward_of_kinds tks [alnumus; open_list] fe Hn)
      by (simpl; intros [E|[E|[]]]; discriminate).
    rewrite Hs. cbn [scope_end]. unfold is_kind, kind. rewrite Ks.
    cbn [tk_enum_beq]. unfold contained_begin, contained_end.
    cbn [scope_begin scope_end].
    unfold push_back, Node_span. cbn [type span body app].
    replace (S (b + 1)) with (b + 2) by lia.
    replace (S (fe + 1)) with (fe + 2) by lia. reflexivity.
Qed.

Lemma method_body_unchecked_witness :
  ParseDirectiveFunc method_of_if 0 7 =
  Ok (make_success "ParseDirectiveFunc"
        (mkNode shorthand_void_method_definition_ (Some (0, 7))
           [Node_span (of_tk alnumus) 1 2; Node_of invalid_])
        6) /\
  ParseDirectiveFunc constrained_method 0 13 =
  Ok (make_success "ParseDirectiveFunc"
        (mkNode shorthand_constrained_void_method_definition_
           (Some (0, 13))
           [Node_span type_constraints_ 2 3;
            Node_span (of_tk alnumus) 4 5;
            Node_span functional_block_ 6 10])
        12).
Proof.
  split.
  - apply (proj1 (method_body_unchecked method_of_if 0 7) 5).
    + simpl. repeat split; reflexivity.
    + lia.
    + reflexivity.
    + reflexivity.
    + vm_compute. intros [H|[H|[H|[H|[]]]]]; discriminate.
    + simpl. lia.
  - apply (proj2 (method_body_unchecked constrained_method 0 13) 4 11).
    + simpl. repeat split; reflexivity.
    + lia.
    + reflexivity.
    + simpl. repeat split; reflexivity.
    + reflexivity.
    + reflexivity.
Defined.

(** ** Statements of a pragmatic block *)

Lemma declaration_step tks p e node :
  kinds_at tks p [var_; alnumus; eos] -> p + 3 <= e ->
  parse_statement (find_statement tks) (ParseDirectiveVar tks) true
    var_ eos p e node = Ok (push_back node (declaration_node p), p + 3).
Proof.
  intros H He.
  assert (Hf : find_forward tks p [var_; alnumus; eos] = true).
  { apply find_forward_of_kinds; [exact H|].
    simpl. intros [E|[E|[E|[]]]]; discriminate. }
  destruct H as (K0 & K1 & K2 & _).
  unfold parse_statement.
  rewrite (find_statement_simple tks var_ alnumus p e) by auto.
  cbn [valid scope_begin scope_end negb].
  unfold ParseDirectiveVar. cbv zeta. rewrite ?next_it.
  unfold cursor. cbn [it_]. rewrite Hf.
  replace (Nat.min (p + 3) (p + 3)) with (p + 3) by lia.
  replace (Nat.min (p + 3) (p + 2)) with (p + 2) by lia.
  replace (Nat.min (p + 3) (p + 1)) with (p + 1) by lia.
  cbn [bind make_success make_result res_valid res_node res_it negb].
  reflexivity.
Qed.

Lemma assignment_step tks p e node :
  kinds_at tks p identifier_statement_head -> p + 4 <= e ->
  parse_statement (find_open_statement tks) (ParseIdentifierStatement tks)
    false alnumus eos p e node = Ok (push_back node (assignment_node p), p + 4).
Proof.
  intros H He.
  pose proof (kinds_at_nth _ _ _ 0 _ H eq_refl) as K0.
  pose proof (kinds_at_nth _ _ _ 1 _ H eq_refl) as K1.
  pose proof (kinds_at_nth _ _ _ 2 _ H eq_refl) as K2.
  pose proof (kinds_at_nth _ _ _ 3 _ H eq_refl) as K3.
  rewrite Nat.add_0_r in K0.
  unfold parse_statement, find_open_statement.
  rewrite (find_statement_of_reaches tks true alnumus eos p (p + 3) e);
    try assumption; try lia.
  2:{ intros q Hq.
      assert (Hc : q = p + 1 \/ q = p + 2) by lia.
      destruct Hc as [-> | ->]; [rewrite K1|rewrite K2]; reflexivity. }
  cbn [valid scope_begin scope_end negb].
  unfold ParseIdentifierStatement, is_kind, kind. cbv zeta.
  rewrite K0, K1, K2, K3.
  cbn [tk_enum_beq negb bind make_success make_result res_valid res_node
       res_it].
  unfold assignment_node, push_back, Node_span. cbn [type span body app].
  reflexivity.
Qed.

Lemma initialised_step tks p s e n node :
  kinds_at tks p [var_; alnumus; simple_assignment] ->
  flat tks (p + 3) s -> above_assignment tks (p + 3) s ->
  kind_at tks s = eos -> s < e ->
  build_statement tks (p + 3) s None = Ok (Some n) ->
  parse_statement (find_statement tks) (ParseDirectiveVar tks) true
    var_ eos p e node = Ok (push_back node (initialised_node p s n), S s).
Proof.
  intros H Hflat Hab Ks Hse Hn.
  pose proof (kinds_at_nth _ _ _ 0 _ H eq_refl) as K0.
  pose proof (kinds_at_nth _ _ _ 1 _ H eq_refl) as K1.
  pose proof (kinds_at_nth _ _ _ 2 _ H eq_refl) as K2.
  rewrite Nat.add_0_r in K0.
  pose proof (flat_range tks (p + 3) s Hflat) as Hr.
  unfold parse_statement, find_statement.
  rewrite (find_statement_of_reaches tks false var_ eos p s e);
    try assumption; try lia.
  2:{ intros q Hq. apply expression_token_passes; [|right; reflexivity].
      destruct (Nat.eq_dec q (p + 1)) as [->|Hne1];
        [rewrite K1; reflexivity|].
      destruct (Nat.eq_dec q (p + 2)) as [->|Hne2];
        [rewrite K2; reflexivity|].
      apply (flat_tokens tks (p + 3) s Hflat). lia. }
  cbn [valid scope_begin scope_end negb].
  rewrite (var_of_flat tks p s (S s) n) by (try assumption; lia).
  reflexivity.
Qed.


Ltac loop_head e K :=
  unfold is_kind, kind; rewrite K;
  match goal with
  | |- context [?p <? e] =>
    replace (p <? e) with true by (symmetry; apply Nat.ltb_lt; lia)
  end;
  cbn [tk_enum_beq negb andb].

Ltac loop_tail IH Hf :=
  cbn [bind fst snd]; rewrite IH by (simpl in Hf; lia);
  unfold push_back; cbn [type span body]; rewrite <- app_assoc;
  reflexivity.

Lemma loop_ends tks p e :
  p = e \/ (p < e /\ kind_at tks p = eof) ->
  (p <? e) && negb (is_kind tks p eof) = false.
Proof.
  intros [->|[_ Hk]].
  - rewrite Nat.ltb_irrefl. reflexivity.
  - unfold is_kind, kind. rewrite Hk. simpl. apply andb_false_r.
Qed.

Lemma pragmatic_loop_accepts tks e : forall p stop nodes,
  statements tks false e p stop nodes ->
  forall fuel node, List.length nodes < fuel ->
  ParsePragmaticBlock_loop tks fuel p e node =
  Ok (make_success "ParsePragmaticBlock"
        (mkNode (type node) (span node) (body node ++ nodes)) stop).
Proof.
  induction 1 as [p Hend
                 |p stop nodes H He Hrest IH
                 |p stop nodes H He Hrest IH
                 |p s n stop nodes H Hflat Hab Ks Hse Hn Hrest IH
                 |p s n stop nodes Hfun Kp Hflat Ks Hse Hn Hrest IH];
    intros fuel node Hf; (destruct fuel as [|fuel]; [simpl in Hf; lia|]);
    cbn [ParsePragmaticBlock_loop]; cbv zeta.
  - rewrite (loop_ends tks p e Hend). rewrite app_nil_r.
    destruct node; reflexivity.
  - pose proof H as (K0 & _). loop_head e K0.
    rewrite declaration_step by assumption. loop_tail IH Hf.
  - pose proof H as (K0 & _). loop_head e K0.
    rewrite assignment_step by assumption. loop_tail IH Hf.
  - pose proof H as (K0 & _).
    pose proof (flat_range tks (p + 3) s Hflat) as Hr. loop_head e K0.
    rewrite (initialised_step tks p s e n) by assumption. loop_tail IH Hf.
  - discriminate Hfun.
Qed.


Lemma statements_length tks functional e p stop nodes :
  statements tks functional e p stop nodes ->
  p + 3 * List.length nodes <= stop /\ stop <= e.
Proof.
  induction 1 as [p Hend
                 |p stop nodes H He Hrest IH
                 |p stop nodes H He Hrest IH
                 |p s n stop nodes H Hflat Hab Ks Hse Hn Hrest IH
                 |p s n stop nodes Hfun Kp Hflat Ks Hse Hn Hrest IH];
    simpl; try lia.
  - apply flat_range in Hflat. lia.
  - apply flat_range in Hflat. lia.
Qed.

Lemma pragmatic_block_accepts tks b e stop nodes :
  statements tks false e b stop nodes ->
  ParsePragmaticBlock tks b e =
  Ok (make_success "ParsePragmaticBlock"
        (mkNode pragmatic_block_ (Some (b, e)) nodes) stop).
Proof.
  intros H. unfold ParsePragmaticBlock.
  pose proof (statements_length tks false e b stop nodes H) as Hl.
  rewrite (pragmatic_loop_accepts tks e b stop nodes H) by lia.
  reflexivity.
Qed.







(** X19. A pragmatic block dispatches on an identifier, [type], [var],
    [class] and [func] only.  A statement led by any other token,
    [return] among them, ends the block with the error result at that
    token and no node. *)
Theorem pragmatic_block_rejects tks b e :
  ~ In (kind_at tks b) [eof; alnumus; type_; var_; class_; func_] ->
  b < e ->
  ParsePragmaticBlock tks b e =
  Ok (make_error "ParsePragmaticBlock" b (nth b tks sentinel_end_token)
        "ParsePragmaticBlock: Invalid statement.").
Proof.
  intros Hk Hlt. unfold ParsePragmaticBlock.
  cbn [ParsePragmaticBlock_loop]. cbv zeta. unfold is_kind, kind, at_.
  apply Nat.ltb_lt in Hlt. rewrite Hlt.
  rewrite !tk_enum_beq_false; [reflexivity| | | | | |];
    intros Heq; apply Hk; rewrite Heq; simpl; auto 10.
Qed.

Lemma pragmatic_block_rejects_witness :
  kind_at return_var_block 0 = return_ /\
  ParsePragmaticBlock return_var_block 0 7 =
  Ok (make_error "ParsePragmaticBlock" 0 (tok return_ "#return")
        "ParsePragmaticBlock: Invalid statement.").
Proof.
  split; [reflexivity|].
  apply (pragmatic_block_rejects return_var_block 0 7); [|lia].
  vm_compute. intros [H|[H|[H|[H|[H|[H|[]]]]]]]; discriminate.
Defined.

Lemma type_alias_step tks p e node :
  kinds_at tks p type_alias_head -> p + 5 <= e ->
  parse_statement (find_statement tks) (ParseDirectiveType tks) true
    type_ eos p e node = Ok (push_back node (type_alias_node p), p + 6).
Proof.
  intros H He.
  pose proof (kinds_at_nth _ _ _ 0 _ H eq_refl) as K0.
  pose proof (kinds_at_nth _ _ _ 1 _ H eq_refl) as K1.
  pose proof (kinds_at_nth _ _ _ 2 _ H eq_refl) as K2.
  pose proof (kinds_at_nth _ _ _ 3 _ H eq_refl) as K3.
  pose proof (kinds_at_nth _ _ _ 4 _ H eq_refl) as K4.
  rewrite Nat.add_0_r in K0.
  unfold parse_statement, find_statement.
  rewrite (find_statement_of_reaches tks false type_ eos p (p + 4) e);
    try assumption; try lia.
  2:{ intros q Hq.
      assert (Hc : q = p + 1 \/ q = p + 2 \/ q = p + 3) by lia.
      destruct Hc as [-> |[-> | ->]];
        [rewrite K1|rewrite K2|rewrite K3]; reflexivity. }
  cbn [valid scope_begin scope_end negb].
  replace (S (p + 4)) with (p + 5) by lia.
  rewrite type_alias_parses by (try assumption; lia).
  cbn [bind make_success make_result res_valid res_node res_it negb].
  reflexivity.
Qed.

Lemma pragmatic_loop_type_alias tks p e node fuel :
  kinds_at tks p type_alias_head -> p + 5 <= e ->
  ParsePragmaticBlock_loop tks (S fuel) p e node =
  ParsePragmaticBlock_loop tks fuel (p + 6) e
    (push_back node (type_alias_node p)).
Proof.
  intros H He.
  pose proof (kinds_at_nth _ _ _ 0 _ H eq_refl) as K0.
  rewrite Nat.add_0_r in K0.
  cbn [ParsePragmaticBlock_loop]. cbv zeta.
  unfold is_kind, kind. rewrite K0.
  replace (p <? e) with true by (symmetry; apply Nat.ltb_lt; lia).
  cbn [tk_enum_beq negb andb].
  rewrite type_alias_step by (try assumption; lia).
  reflexivity.
Qed.

Lemma pragmatic_loop_stops tks p e node fuel :
  e <= p ->
  ParsePragmaticBlock_loop tks (S fuel) p e node =
  Ok (make_success "ParsePragmaticBlock" node p).
Proof.
  intros He. cbn [ParsePragmaticBlock_loop]. cbv zeta.
  replace (p <? e) with false by (symmetry; apply Nat.ltb_ge; lia).
  reflexivity.
Qed.

(** X20. After a type alias [#type name = other ;] a pragmatic block
    resumes one token late.  A block that holds the alias and nothing else
    returns a cursor one past the end of its range.  When the declaration
    [#var x ;] follows, which on its own is a block that parses, the
    block skips [#var], reads [x ;] as an identifier statement and throws. *)
Theorem type_alias_swallows_next_token tks b e :
  kinds_at tks b type_alias_head ->
  (e = b + 5 ->
   ParsePragmaticBlock tks b e =
   Ok (make_success "ParsePragmaticBlock"
         (mkNode pragmatic_block_ (Some (b, e)) [type_alias_node b])
         (e + 1))) /\
  (kinds_at tks (b + 5) [var_; alnumus; eos] -> e = b + 8 ->
   ParsePragmaticBlock tks (b + 5) e =
   Ok (make_success "ParsePragmaticBlock"
         (mkNode pragmatic_block_ (Some (b + 5, e))
            [declaration_node (b + 5)]) e) /\
   ParsePragmaticBlock tks b e =
   Throw (runtime_error "ParsePragmaticBlock: Invalid statement.")).
Proof.
  intros H. split.
  - intros He. unfold ParsePragmaticBlock.
    rewrite pragmatic_loop_type_alias by (try assumption; lia).
    destruct (e - b) as [|fuel] eqn:Hf; [lia|].
    rewrite pragmatic_loop_stops by lia.
    unfold push_back, Node_span. cbn [type span body app].
    replace (b + 6) with (e + 1) by lia. reflexivity.
  - intros Hv He. split.
    + apply pragmatic_block_accepts.
      apply statements_declaration; [exact Hv|lia|].
      replace (b + 5 + 3) with e by lia. apply statements_end. left.
      reflexivity.
    + pose proof (kinds_at_nth _ _ _ 1 _ Hv eq_refl) as K6.
      pose proof (kinds_at_nth _ _ _ 2 _ Hv eq_refl) as K7.
      replace (b + 5 + 1) with (b + 6) in K6 by lia.
      replace (b + 5 + 2) with (b + 7) in K7 by lia.
      unfold ParsePragmaticBlock.
      rewrite pragmatic_loop_type_alias by (try assumption; lia).
      destruct (e - b) as [|fuel] eqn:Hf; [lia|].
      cbn [ParsePragmaticBlock_loop]. cbv zeta.
      unfold is_kind, kind. rewrite K6.
      replace (b + 6 <? e) with true by (symmetry; apply Nat.ltb_lt; lia).
      cbn [tk_enum_beq negb andb].
      unfold parse_statement, find_open_statement.
      rewrite (find_statement_of_reaches tks true alnumus eos (b + 6)
                 (b + 7) e); try assumption; try lia.
      cbn [valid scope_begin scope_end negb].
      unfold ParseIdentifierStatement, is_kind, kind. cbv zeta.
      rewrite K6. replace (b + 6 + 1) with (b + 7) by lia. rewrite K7.
      reflexivity.
Qed.

Lemma type_alias_swallows_next_token_witness :
  kinds_at alias_then_declaration 0 type_alias_head /\
  ParsePragmaticBlock alias_then_declaration 0 5 =
  Ok (make_success "ParsePragmaticBlock"
        (mkNode pragmatic_block_ (Some (0, 5)) [type_alias_node 0]) 6) /\
  ParsePragmaticBlock alias_then_declaration 5 8 =
  Ok (make_success "ParsePragmaticBlock"
        (mkNode pragmatic_block_ (Some (5, 8)) [declaration_node 5]) 8) /\
  ParsePragmaticBlock alias_then_declaration 0 8 =
  Throw (runtime_error "ParsePragmaticBlock: Invalid statement.").
Proof.
  assert (H : kinds_at alias_then_declaration 0 type_alias_head).
  { simpl. repeat split; reflexivity. }
  split; [exact H|]. split.
  - exact (proj1 (type_alias_swallows_next_token alias_then_declaration
                    0 5 H) eq_refl).
  - apply (proj2 (type_alias_swallows_next_token alias_then_declaration
                    0 8 H)).
    + simpl. repeat split; reflexivity.
    + reflexivity.
Defined.

(** ** Statements of a functional block, with their expressions *)






(** * Further properties of the parser *)

(** ** Statements of a functional block, anywhere in the block *)









(** ** Malformed expressions, at any depth *)








(** *** The first pass over an operand *)









(** *** A following pass over an operand *)








(** *** Malformed expressions throw *)








(** ** Arithmetic expressions *)

(** *** The parse tree of an expression *)




(** *** Tokens in the vector *)






(** *** The scope of a parenthesised expression *)






(** *** Passes over a parenthesised operand *)





(** *** The tree of an arithmetic expression *)

















(** ** How the processes report failure *)



(** *** Ranges of the finders *)








(** *** Leaves and sigils *)
















(** *** Expressions and statements *)










(** *** Blocks *)


















(** * Properties of the string converters *)

Lemma to_u8vec_loop_reads : forall s i vec junk,
  ~ In NUL s -> (i + Z.of_nat (List.length s) <= INT_MAX)%Z ->
  to_u8vec_loop (s ++ NUL :: junk) i vec = Some (vec ++ s)%list.
Proof.
  induction s as [|c s IH]; intros i vec junk Hn Hl.
  - simpl. rewrite app_nil_r. reflexivity.
  - cbn [app to_u8vec_loop].
    destruct (Byte.eqb c NUL) eqn:Hc.
    + apply Byte.byte_dec_bl in Hc. exfalso. apply Hn. left. exact Hc.
    + cbn [List.length] in Hl.
      replace (i =? INT_MAX)%Z with false by (symmetry; apply Z.eqb_neq; lia).
      rewrite IH.
      * rewrite <- app_assoc. reflexivity.
      * intros Hin. apply Hn. right. exact Hin.
      * lia.
Qed.

Lemma to_u8vec_loop_inv : forall rest i vec out,
  (i <= INT_MAX)%Z ->
  to_u8vec_loop rest i vec = Some out ->
  exists s junk,
    rest = (s ++ NUL :: junk)%list /\ out = (vec ++ s)%list /\
    ~ In NUL s /\ (i + Z.of_nat (List.length s) <= INT_MAX)%Z.
Proof.
  induction rest as [|c rest IH]; intros i vec out Hi H; [discriminate|].
  cbn [to_u8vec_loop] in H.
  destruct (Byte.eqb c NUL) eqn:Hc.
  - apply Byte.byte_dec_bl in Hc. subst c. injection H as <-.
    exists [], rest. rewrite app_nil_r.
    split; [reflexivity|]. split; [reflexivity|].
    split; [intros []|]. cbn [List.length Z.of_nat]. lia.
  - destruct (i =? INT_MAX)%Z eqn:Hm; [discriminate|].
    apply Z.eqb_neq in Hm.
    assert (Hi' : (i + 1 <= INT_MAX)%Z) by lia.
    destruct (IH _ _ _ Hi' H) as (s & junk & -> & -> & Hn & Hl).
    exists (c :: s), junk. repeat split.
    + rewrite <- app_assoc. reflexivity.
    + intros [Heq|Hin]; [|contradiction].
      subst c. discriminate Hc.
    + cbn [List.length]. lia.
Qed.

(** X22. [to_u8vec] returns the bytes before the first NUL of the array
    its argument points into, and is defined exactly when there is such a
    NUL and an [int] can count the bytes before it: without a NUL the loop
    reads past the array. *)
Theorem to_u8vec_reads_to_first_NUL str out :
  to_u8vec str = Some out <->
  exists junk, str = (out ++ NUL :: junk)%list /\ c_string out.
Proof.
  unfold to_u8vec, c_string. split.
  - intros H. apply to_u8vec_loop_inv in H; [|unfold INT_MAX; lia].
    destruct H as (s & junk & -> & -> & Hn & Hl).
    exists junk. split; [reflexivity|]. split; [exact Hn|].
    simpl in Hl. exact Hl.
  - intros (junk & -> & Hn & Hl).
    rewrite to_u8vec_loop_reads; auto.
Qed.

Lemma ab_is_c_string : c_string [x61; x62].
Proof.
  split.
  - intros [H|[H|[]]]; discriminate.
  - unfold INT_MAX. simpl. lia.
Qed.

Lemma to_u8vec_reads_to_first_NUL_witness :
  c_string [x61; x62] /\ to_u8vec ab_NUL_c = Some [x61; x62].
Proof.
  split; [exact ab_is_c_string|].
  apply (proj2 (to_u8vec_reads_to_first_NUL ab_NUL_c [x61; x62])).
  exists [x63]. split; [reflexivity|exact ab_is_c_string].
Defined.

(** X23. What the loader returns reads back as the file: for a file that
    is not empty, holds no NUL and is no longer than an [int] can count,
    [to_u8vec] of the loaded vector is the content of the file.  The
    empty vector the loader returns for an empty file holds no NUL, so
    [to_u8vec] is not defined on it. *)
Theorem loaded_file_reads_back fs name content :
  fs name = readable content -> c_string content ->
  exists chars,
    load_file_to_char8_vector fs name = Ok chars /\
    (content <> [] -> to_u8vec chars = Some content) /\
    (content = [] -> chars = [] /\ to_u8vec chars = None).
Proof.
  intros Hf [Hn Hl]. unfold load_file_to_char8_vector. rewrite Hf.
  destruct content as [|c content].
  - exists []. split; [reflexivity|]. split.
    + intros Hne. contradiction.
    + intros _. split; reflexivity.
  - cbn [List.length Nat.eqb].
    assert (Hb : Byte.eqb (back (c :: content)) NUL = false).
    { destruct (Byte.eqb (back (c :: content)) NUL) eqn:Hb; [|reflexivity].
      apply Byte.byte_dec_bl in Hb. exfalso. apply Hn. rewrite <- Hb.
      unfold back.
      destruct (exists_last (l := c :: content)) as (l' & a & Heq);
        [discriminate|].
      rewrite Heq, last_last. apply in_or_app. right. left. reflexivity. }
    rewrite Hb. cbn [negb]. eexists. split; [reflexivity|]. split.
    + intros _. unfold to_u8vec.
      rewrite to_u8vec_loop_reads; [reflexivity|exact Hn|].
      simpl Z.add. exact Hl.
    + intros Heq. discriminate Heq.
Qed.

Lemma loaded_file_reads_back_witness :
  two_files "ab.candi" = readable [x61; x62] /\ c_string [x61; x62] /\
  exists chars,
    load_file_to_char8_vector two_files "ab.candi" = Ok chars /\
    to_u8vec chars = Some [x61; x62].
Proof.
  split; [reflexivity|]. split; [exact ab_is_c_string|].
  destruct (loaded_file_reads_back two_files "ab.candi" [x61; x62]
              eq_refl ab_is_c_string) as (chars & Hload & Hread & _).
  exists chars. split; [exact Hload|]. apply Hread. discriminate.
Defined.
